(** * Control plane of the vLLM inference fleet: request chunking, weight
    synchronisation, cache reset, shutdown and the client health check.

    Shallow embedding of [verifiers/inference/vllm_serve.py] and
    [verifiers/inference/vllm_client.py].  Python [int]s are [Z], Python
    lists are Rocq lists, a raised exception is the [Raise] branch of
    [result], a call that blocks for ever is its [Blocked] branch.  Times
    are [Z] counts of milliseconds.  Part I holds the embedding, Part II
    the facts proved about it. *)

From Stdlib Require Import ZArith QArith Lia Ascii.
From stdpp Require Import base list strings gmap.

Local Open Scope Z_scope.

(** * Part I: the embedding *)

(** ** Python exceptions and fallible results *)

Inductive exn : Type :=
  | ZeroDivisionError
  | TypeError
  | AttributeError
  | ValueError (msg : string)
  | RuntimeError (msg : string)
  | ConnectionError (msg : string)
  | Exception (msg : string).

Inductive result (A : Type) : Type :=
  | Ok (a : A)
  | Raise (e : exn)
  | Blocked.
Arguments Ok {A} a.
Arguments Raise {A} e.
Arguments Blocked {A}.

(** ** [chunk_list] (vllm_serve.py, lines 121-123) *)

Module Chunk.
Section chunking.
Context {A : Type}.

(** A slice bound as Python normalises it: a negative bound counts from
    the end, and every bound is clamped to [0 .. len]. *)
Definition norm_index (len i : Z) : Z :=
  if decide (i < 0) then Z.max (i + len) 0 else Z.min i len.

(** [lst[a:b]] *)
Definition slice (a b : Z) (lst : list A) : list A :=
  let len := Z.of_nat (length lst) in
  let a' := norm_index len a in
  let b' := norm_index len b in
  take (Z.to_nat (b' - a')) (drop (Z.to_nat a') lst).

(** [k, r = divmod(len(lst), n)]
    [return [lst[i*k + min(i, r) : (i+1)*k + min(i+1, r)] for i in range(n)]]

    [divmod] raises on [n = 0]; [Z.div] and [Z.modulo] round towards
    minus infinity as Python does; [range(n)] is empty for [n <= 0]. *)
Definition chunk_list (lst : list A) (n : Z) : result (list (list A)) :=
  if decide (n = 0) then Raise ZeroDivisionError
  else
    let k := Z.of_nat (length lst) `div` n in
    let r := Z.of_nat (length lst) `mod` n in
    Ok ((λ i, slice (i * k + Z.min i r) ((i + 1) * k + Z.min (i + 1) r) lst)
          <$> seqZ 0 n).
End chunking.

(** The left end of chunk [i], the expression in the comprehension. *)
Definition chunk_start (k r i : Z) : Z := i * k + Z.min i r.
End Chunk.

(** ** Tensors, collective groups and the effects of a process *)

Record tensor : Type := Tensor {
  t_dtype : string;
  t_shape : list Z;
  t_data : list Z
}.

(** [StatelessProcessGroup.create(host, port, rank, world_size)] *)
Record process_group : Type := ProcessGroup {
  pg_host : string;
  pg_port : Z;
  pg_rank : Z;
  pg_world_size : Z
}.

(** [PyNcclCommunicator(pg, device)] *)
Record communicator : Type := Communicator {
  comm_group : process_group;
  comm_device : string
}.

(** What a process does to the world outside it, in program order. *)
Inductive event : Type :=
  | EvCreateGroup (pg : process_group)
  | EvTorchEmpty (shape : list Z) (dtype : string) (device : string)
  | EvBroadcast (c : communicator) (buffer : tensor) (src : option Z)
  | EvBarrier (c : communicator)
  | EvLoadWeights (name : string) (weight : tensor)
  | EvRelease (c : communicator)
  | EvHttpGet (url : string)
  | EvHttpPost (url : string)
  | EvSleep (ms : Z)
  | EvAtexitRegister (what : string)
  | EvJoin (pid : nat) (timeout_ms : option Z)
  | EvTerminate (pid : nat).

(** A computation over a state [σ] that may raise and that logs its
    events.  The state and the log reached before a raise are kept, as an
    exception in Python leaves the mutations made so far in place. *)
Definition M (σ A : Type) : Type := σ → result A * σ * list event.

Definition ret {σ A} (a : A) : M σ A := λ s, (Ok a, s, []).

Definition mbind' {σ A B} (m : M σ A) (f : A → M σ B) : M σ B :=
  λ s, match m s with
       | (Ok a, s', log) => let '(r, s'', log') := f a s' in (r, s'', log ++ log')
       | (Raise e, s', log) => (Raise e, s', log)
       | (Blocked, s', log) => (Blocked, s', log)
       end.

Notation "x ←' m ;; k" := (mbind' m (λ x, k))
  (at level 100, m at next level, right associativity, only parsing).
Notation "m ;;' k" := (mbind' m (λ _, k))
  (at level 100, right associativity, only parsing).

Definition get {σ} : M σ σ := λ s, (Ok s, s, []).
Definition put {σ} (s : σ) : M σ unit := λ _, (Ok tt, s, []).
Definition raise {σ A} (e : exn) : M σ A := λ s, (Raise e, s, []).
Definition emit {σ} (ev : event) : M σ unit := λ s, (Ok tt, s, [ev]).

(** ** [WeightSyncWorkerExtension] (vllm_serve.py, lines 50-88) *)

Module Ext.
(** One tensor-parallel worker of a shard.  [world_rank] is what
    [get_world_group().rank] answers; [incoming] is what the collective
    delivers into a buffer of this worker on a broadcast from [src]. *)
Record state : Type := State {
  device : string;
  world_rank : Z;
  incoming : option Z → tensor → tensor;
  pynccl_comm : option communicator;
  client_rank : option Z;
  model : gmap string tensor
}.

Definition set_comm (c : option communicator) (s : state) : state :=
  State (device s) (world_rank s) (incoming s) c (client_rank s) (model s).
Definition set_client_rank (r : option Z) (s : state) : state :=
  State (device s) (world_rank s) (incoming s) (pynccl_comm s) r (model s).
Definition set_model (m : gmap string tensor) (s : state) : state :=
  State (device s) (world_rank s) (incoming s) (pynccl_comm s) (client_rank s) m.

(** [torch.empty(shape, dtype=dtype, device=self.device)] *)
Definition torch_empty (shape : list Z) (dtype : string) : M state tensor :=
  s ←' get;;
  emit (EvTorchEmpty shape dtype (device s));;'
  ret (Tensor dtype shape []).

(** [comm.broadcast(weight, src=src)]: the buffer is filled in place. *)
Definition broadcast (c : communicator) (weight : tensor) (src : option Z)
  : M state tensor :=
  s ←' get;;
  emit (EvBroadcast c weight src);;'
  ret (incoming s src weight).

(** [model_runner.model.load_weights(weights=[(name, weight)])] *)
Definition load_weights (name : string) (weight : tensor) : M state unit :=
  s ←' get;;
  emit (EvLoadWeights name weight);;'
  put (set_model (<[name := weight]> (model s)) s).

Definition init_communicator (host : string) (port world_size : Z) : M state unit :=
  s ←' get;;
  match pynccl_comm s with
  | Some _ =>
      raise (RuntimeError
        "Weight update group already initialised; call close_communicator() first.")
  | None =>
      let rank := world_rank s in
      let pg := ProcessGroup host port rank world_size in
      emit (EvCreateGroup pg);;'
      s ←' get;;
      put (set_comm (Some (Communicator pg (device s))) s);;'
      s ←' get;;
      put (set_client_rank (Some (world_size - 1)) s)
  end.

Definition update_named_param (name dtype : string) (shape : list Z) : M state unit :=
  s ←' get;;
  match pynccl_comm s with
  | None =>
      raise (RuntimeError "Communicator not initialised. Call init_communicator() first.")
  | Some comm =>
      weight ←' torch_empty shape dtype;;
      weight ←' broadcast comm weight (client_rank s);;
      emit (EvBarrier comm);;'
      load_weights name weight
  end.

Definition close_communicator : M state unit :=
  s ←' get;;
  match pynccl_comm s with
  | Some comm =>
      emit (EvRelease comm);;'
      s ←' get;;
      put (set_comm None s);;'
      s ←' get;;
      put (set_client_rank None s)
  | None => ret tt
  end.
End Ext.

(** ** The shard process: [llm_worker] (vllm_serve.py, lines 304-335) *)

Record CompletionOutput : Type := mkCompletionOutput {
  token_ids : list Z;
  text : string
}.

Record RequestOutput : Type := mkRequestOutput {
  prompt_token_ids : list Z;
  outputs : list CompletionOutput
}.

(** [GuidedDecodingParams(backend="outlines", regex=...)] *)
Record GuidedDecodingParams : Type := mkGuidedDecodingParams {
  backend : string;
  regex : string
}.

(** The fields of [SamplingParams] the server sets.  Floats are carried
    and never computed on; they are written as rationals. *)
Record SamplingParams : Type := mkSamplingParams {
  sp_n : Z;
  sp_repetition_penalty : Q;
  sp_temperature : Q;
  sp_top_p : Q;
  sp_top_k : Z;
  sp_min_p : Q;
  sp_max_tokens : Z;
  sp_guided_decoding : option GuidedDecodingParams
}.

Module Worker.
(** The methods of [WeightSyncWorkerExtension] reachable through
    [collective_rpc]. *)
Inductive rpc : Type :=
  | RpcInitCommunicator (host : string) (port world_size : Z)
  | RpcUpdateNamedParam (name dtype : string) (shape : list Z)
  | RpcCloseCommunicator.

(** [cmd["method"]] with its [args] and [kwargs]. *)
Inductive method_call : Type :=
  | CallGenerate (prompts : list string) (sampling_params : SamplingParams)
  | CallCollectiveRpc (r : rpc)
  | CallResetPrefixCache.

(** [cmd["type"]] of a command that names a method. *)
Inductive invoke_type : Type := call | fire_and_forget.

Inductive command : Type :=
  | Invoke (ty : invoke_type) (m : method_call)
  | Shutdown.

(** What [conn.recv()] yields in the worker: a command, or the
    [KeyboardInterrupt] raised while it waits. *)
Inductive arrival : Type :=
  | Cmd (c : command)
  | KeyboardInterrupt.

(** What a worker sends back: the list of [RequestOutput]s of
    [generate], the [bool] of [reset_prefix_cache], the list of [None]s
    of a [collective_rpc]. *)
Inductive msg : Type :=
  | MsgOutputs (outs : list RequestOutput)
  | MsgBool (b : bool)
  | MsgNones (k : nat).

(** The engine [llm] of one shard.  [complete] is the engine's answer to
    one prompt: [LLM.generate] returns one [RequestOutput] per prompt, in
    prompt order.  [cache_reset_ok] is what [LLM.reset_prefix_cache]
    reports.  [tp_workers] are the extension instances of its
    tensor-parallel workers. *)
Record llm : Type := Llm {
  complete : string → SamplingParams → RequestOutput;
  cache_reset_ok : bool;
  tp_workers : list Ext.state
}.

Definition set_tp_workers (ws : list Ext.state) (l : llm) : llm :=
  Llm (complete l) (cache_reset_ok l) ws.

Definition rpc_method (r : rpc) : M Ext.state unit :=
  match r with
  | RpcInitCommunicator host port world_size => Ext.init_communicator host port world_size
  | RpcUpdateNamedParam name dtype shape => Ext.update_named_param name dtype shape
  | RpcCloseCommunicator => Ext.close_communicator
  end.

(** [collective_rpc]: every tensor-parallel worker runs the method; the
    first failure among them, in worker order, is the one reported. *)
Fixpoint run_each (m : M Ext.state unit) (ws : list Ext.state)
  : result nat * list Ext.state * list event :=
  match ws with
  | [] => (Ok 0%nat, [], [])
  | w :: ws' =>
      let '(r, w', log) := m w in
      let '(rs, ws'', log') := run_each m ws' in
      (match r, rs with
       | Ok _, Ok k => Ok (S k)
       | Ok _, Raise e => Raise e
       | Ok _, Blocked => Blocked
       | Raise e, _ => Raise e
       | Blocked, _ => Blocked
       end, w' :: ws'', log ++ log')
  end.

Definition collective_rpc (r : rpc) : M llm msg :=
  λ l, let '(res, ws, log) := run_each (rpc_method r) (tp_workers l) in
       (match res with
        | Ok k => Ok (MsgNones k)
        | Raise e => Raise e
        | Blocked => Blocked
        end, set_tp_workers ws l, log).

Definition llm_generate (prompts : list string) (sp : SamplingParams) : M llm msg :=
  l ←' get;;
  ret (MsgOutputs ((λ p, complete l p sp) <$> prompts)).

Definition llm_reset_prefix_cache : M llm msg :=
  l ←' get;;
  ret (MsgBool (cache_reset_ok l)).

(** The method [cmd["method"]] of [llm], applied to the command's
    arguments. *)
Definition run_method (m : method_call) : M llm msg :=
  match m with
  | CallGenerate prompts sp => llm_generate prompts sp
  | CallCollectiveRpc r => collective_rpc r
  | CallResetPrefixCache => llm_reset_prefix_cache
  end.

Inductive proc_status : Type :=
  | Running
  | Exited
  | Crashed (e : exn)
  | Terminated.

(** A shard process with the two directions of its pipe.  [inbox] holds
    what the parent sent and the worker has not received yet, [outbox]
    what the worker sent and the parent has not received yet, [handled]
    what the worker received so far.  [exits_in] says after how many
    milliseconds, counted from the start of the server's shutdown, the
    process ends of its own accord; [None] when it never does. *)
Record worker : Type := Mk {
  engine : llm;
  inbox : list arrival;
  outbox : list msg;
  handled : list arrival;
  wlog : list event;
  status : proc_status;
  exits_in : option Z
}.

Definition set_inbox (q : list arrival) (w : worker) : worker :=
  Mk (engine w) q (outbox w) (handled w) (wlog w) (status w) (exits_in w).
Definition set_outbox (q : list msg) (w : worker) : worker :=
  Mk (engine w) (inbox w) q (handled w) (wlog w) (status w) (exits_in w).
Definition set_status (st : proc_status) (w : worker) : worker :=
  Mk (engine w) (inbox w) (outbox w) (handled w) (wlog w) st (exits_in w).
Definition received (a : arrival) (w : worker) : worker :=
  Mk (engine w) (inbox w) (outbox w) (handled w ++ [a]) (wlog w) (status w) (exits_in w).
Definition ran (l : llm) (log : list event) (w : worker) : worker :=
  Mk l (inbox w) (outbox w) (handled w) (wlog w ++ log) (status w) (exits_in w).

(** One turn of the [while True] loop, on what [conn.recv()] gave.  An
    exception of the method leaves the loop and ends the process. *)
Definition llm_worker_step (a : arrival) (w : worker) : worker :=
  let w := received a w in
  match a with
  | KeyboardInterrupt =>
      let '(r, l, log) := collective_rpc RpcCloseCommunicator (engine w) in
      match r with
      | Ok _ => set_status Exited (ran l log w)
      | Raise e => set_status (Crashed e) (ran l log w)
      | Blocked => ran l log w
      end
  | Cmd Shutdown => set_status Exited w
  | Cmd (Invoke ty m) =>
      let '(r, l, log) := run_method m (engine w) in
      match r with
      | Ok result =>
          match ty with
          | call => set_outbox (outbox w ++ [result]) (ran l log w)
          | fire_and_forget => ran l log w
          end
      | Raise e => set_status (Crashed e) (ran l log w)
      | Blocked => ran l log w
      end
  end.

(** The loop over what is pending in the pipe; what a stopped process
    did not receive stays in the pipe. *)
Fixpoint llm_worker_loop (pending : list arrival) (w : worker) : worker :=
  match pending with
  | [] => set_inbox [] w
  | a :: rest =>
      match status w with
      | Running => llm_worker_loop rest (llm_worker_step a w)
      | _ => set_inbox pending w
      end
  end.

Definition run (w : worker) : worker := llm_worker_loop (inbox w) w.

(** Parent side, [conn.send(cmd)], for a shard whose process runs, or
    whose child end of the pipe the parent still holds (the shard spawned
    last): the command is queued.  A send to another shard whose process
    has ended raises in the code; that path is not in the model. *)
Definition send (c : command) (w : worker) : worker :=
  set_inbox (inbox w ++ [Cmd c]) w.

(** Parent side, [conn.recv()]: the next message of the worker, once the
    worker has got through what is pending; [None] when no message will
    come and the call blocks for ever, as it does on the pipe of a running
    worker and on that of the shard spawned last (see [send]). *)
Definition recv (w : worker) : option msg * worker :=
  let w' := run w in
  match outbox w' with
  | m :: rest => (Some m, set_outbox rest w')
  | [] => (None, w')
  end.
End Worker.

(** ** The control plane: [main] (vllm_serve.py, lines 125-302) *)

Module Server.
Import Worker.

(** The fields of [ScriptArguments] the control plane reads. *)
Record ScriptArguments : Type := mkScriptArguments {
  sa_model : string;
  tensor_parallel_size : Z;
  data_parallel_size : Z;
  sa_host : string;
  sa_port : Z
}.

(** The spawn loop of [main]: one process and one pipe for each
    [dp_rank in range(data_parallel_size)].  [start dp_rank] is the
    process of that rank once it has reported ready. *)
Definition spawn (start : Z → worker) (script_args : ScriptArguments) : list worker :=
  start <$> seqZ 0 (data_parallel_size script_args).

(** [get_world_size] *)
Definition get_world_size (script_args : ScriptArguments) : Z :=
  tensor_parallel_size script_args * data_parallel_size script_args.

Record GenerateRequest : Type := mkGenerateRequest {
  prompts : list string;
  n : Z;
  repetition_penalty : Q;
  temperature : Q;
  top_p : Q;
  top_k : Z;
  min_p : Q;
  max_tokens : Z;
  guided_decoding_regex : option string
}.

(** [GuidedDecodingParams(...) if request.guided_decoding_regex else None]:
    [None] and the empty string are falsy. *)
Definition guided_decoding (request : GenerateRequest) : option GuidedDecodingParams :=
  match guided_decoding_regex request with
  | Some re => if decide (re = "") then None else Some (mkGuidedDecodingParams "outlines" re)
  | None => None
  end.

Definition sampling_params (request : GenerateRequest) : SamplingParams :=
  mkSamplingParams (n request) (repetition_penalty request) (temperature request)
    (top_p request) (top_k request) (min_p request) (max_tokens request)
    (guided_decoding request).

(** [if not prompts: prompts = ["<placeholder>"]] *)
Definition or_placeholder (prompts : list string) : list string :=
  match prompts with
  | [] => ["<placeholder>"]
  | _ => prompts
  end.

(** [for conn, prompts in zip(connections, chunks):]
    [    if not prompts: prompts = ["<placeholder>"]]
    [    conn.send({"type": "call", "method": "generate", ...})] *)
Fixpoint send_chunks (sp : SamplingParams) (connections : list worker)
    (chunks : list (list string)) : list worker :=
  match connections, chunks with
  | conn :: connections', prompts :: chunks' =>
      let prompts := or_placeholder prompts in
      send (Invoke call (CallGenerate prompts sp)) conn :: send_chunks sp connections' chunks'
  | _, _ => connections
  end.

(** The truth value of a [Connection]: the class defines neither
    [__bool__] nor [__len__], so every connection is truthy. *)
Definition conn_truthy (conn : worker) : bool := true.

(** [[conn.recv() for conn in connections if keep(conn)]] *)
Fixpoint recv_each (keep : worker → bool) (connections : list worker)
  : result (list msg) * list worker :=
  match connections with
  | [] => (Ok [], [])
  | conn :: connections' =>
      if keep conn then
        match recv conn with
        | (Some m, conn') =>
            let '(r, connections'') := recv_each keep connections' in
            (match r with
             | Ok ms => Ok (m :: ms)
             | Raise e => Raise e
             | Blocked => Blocked
             end, conn' :: connections'')
        | (None, conn') => (Blocked, conn' :: connections')
        end
      else
        let '(r, connections'') := recv_each keep connections' in
        (r, conn :: connections'')
  end.

(** Iterating over one received message. *)
Definition iter_msg (m : msg) : result (list (option RequestOutput)) :=
  match m with
  | MsgOutputs outs => Ok (Some <$> outs)
  | MsgBool _ => Raise TypeError
  | MsgNones k => Ok (replicate k None)
  end.

(** [list(chain.from_iterable(outputs))] *)
Fixpoint chain_from_iterable (ms : list msg) : result (list (option RequestOutput)) :=
  match ms with
  | [] => Ok []
  | m :: ms' =>
      match iter_msg m with
      | Ok xs =>
          match chain_from_iterable ms' with
          | Ok ys => Ok (xs ++ ys)
          | Raise e => Raise e
          | Blocked => Blocked
          end
      | Raise e => Raise e
      | Blocked => Blocked
      end
  end.

(** [[list(o.token_ids) for r in outputs for o in r.outputs]] *)
Fixpoint completion_ids (items : list (option RequestOutput)) : result (list (list Z)) :=
  match items with
  | [] => Ok []
  | Some r :: items' =>
      match completion_ids items' with
      | Ok ys => Ok ((token_ids <$> outputs r) ++ ys)
      | Raise e => Raise e
      | Blocked => Blocked
      end
  | None :: _ => Raise AttributeError
  end.

(** The [/generate/] endpoint; the answer is [completion_ids]. *)
Definition generate (script_args : ScriptArguments) (request : GenerateRequest)
    (connections : list worker) : result (list (list Z)) * list worker :=
  let sp := sampling_params request in
  match Chunk.chunk_list (prompts request) (data_parallel_size script_args) with
  | Ok chunks =>
      let connections := send_chunks sp connections chunks in
      match recv_each conn_truthy connections with
      | (Ok outs, connections) =>
          (match chain_from_iterable outs with
           | Ok items => completion_ids items
           | Raise e => Raise e
           | Blocked => Blocked
           end, connections)
      | (Raise e, connections) => (Raise e, connections)
      | (Blocked, connections) => (Blocked, connections)
      end
  | Raise e => (Raise e, connections)
  | Blocked => (Blocked, connections)
  end.

(** The truth value of a received message, as [all] takes it. *)
Definition msg_truthy (m : msg) : bool :=
  match m with
  | MsgOutputs outs => bool_decide (outs ≠ [])
  | MsgBool b => b
  | MsgNones k => bool_decide (k ≠ 0%nat)
  end.

Definition str_of_bool (b : bool) : string := if b then "True" else "False".

(** The [/reset_prefix_cache/] endpoint; the answer is [message]. *)
Definition reset_prefix_cache (connections : list worker) : result string * list worker :=
  let connections := send (Invoke call CallResetPrefixCache) <$> connections in
  match recv_each (λ _, true) connections with
  | (Ok results, connections) =>
      (Ok ("Reset status: " +:+ str_of_bool (forallb msg_truthy results)), connections)
  | (Raise e, connections) => (Raise e, connections)
  | (Blocked, connections) => (Blocked, connections)
  end.

(** The weight-sync endpoints send to every connection and do not wait. *)
Definition fan_out (r : rpc) (connections : list worker) : list worker :=
  send (Invoke fire_and_forget (CallCollectiveRpc r)) <$> connections.

Definition init_communicator (host : string) (port world_size : Z)
    (connections : list worker) : string * list worker :=
  ("Request received, initializing communicator",
   fan_out (RpcInitCommunicator host port world_size) connections).

Fixpoint has_dot (s : string) : bool :=
  match s with
  | EmptyString => false
  | String c rest => bool_decide (c = "."%char) || has_dot rest
  end.

(** [request.dtype.split(".")[-1]]: what follows the last dot. *)
Fixpoint after_last_dot (s : string) : string :=
  match s with
  | EmptyString => EmptyString
  | String c rest =>
      if has_dot rest then after_last_dot rest
      else if bool_decide (c = "."%char) then rest else String c rest
  end.

(** The dtype is looked up in [torch] by the name that follows the last
    dot; the model carries the name itself, so it covers requests whose
    name is one of torch's dtypes (a name torch does not have makes the
    lookup raise before anything is sent, and the endpoint answer 500). *)
Definition update_named_param (name dtype : string) (shape : list Z)
    (connections : list worker) : string * list worker :=
  let dtype := after_last_dot dtype in
  ("Request received, updating named parameter",
   fan_out (RpcUpdateNamedParam name dtype shape) connections).

Definition close_communicator (connections : list worker) : string * list worker :=
  ("Request received, closing communicator", fan_out RpcCloseCommunicator connections).

(** [p.join(timeout=t)] when [elapsed] milliseconds of the shutdown have
    passed: the process and the time elapsed when the call returns. *)
Definition join_timeout (t elapsed : Z) (p : worker) : worker * Z :=
  match status p with
  | Running =>
      match exits_in p with
      | Some d =>
          if decide (d ≤ elapsed + t) then (set_status Exited p, Z.max elapsed d)
          else (p, elapsed + t)
      | None => (p, elapsed + t)
      end
  | _ => (p, elapsed)
  end.

Definition is_alive (p : worker) : bool :=
  match status p with Running => true | _ => false end.

(** The part of [lifespan] after [yield]:
    [for p in processes:]
    [    p.join(timeout=10)]
    [    if p.is_alive(): p.terminate(); p.join()] *)
Fixpoint lifespan_shutdown (pid : nat) (elapsed : Z) (processes : list worker)
  : list worker * list event :=
  match processes with
  | [] => ([], [])
  | p :: processes' =>
      let '(p, elapsed) := join_timeout 10000 elapsed p in
      let '(p, log) :=
        if is_alive p
        then (set_status Terminated p,
              [EvJoin pid (Some 10000); EvTerminate pid; EvJoin pid None])
        else (p, [EvJoin pid (Some 10000)]) in
      let '(processes'', log') := lifespan_shutdown (S pid) elapsed processes' in
      (p :: processes'', log ++ log')
  end.
End Server.

(** ** The client: [VLLMClient] (vllm_client.py) *)

Module Client.
Import Worker.

(** *** [check_server] (lines 53-69) *)

(** What one [requests.get(url)] comes to. *)
Inductive get_outcome : Type :=
  | RequestException
  | Response (status_code : Z).

(** The network as the health check meets it: how long the [k]-th
    request takes, in milliseconds, and how it ends. *)
Record network : Type := Network {
  latency : nat → Z;
  answer : nat → get_outcome
}.

(** The wall clock, in milliseconds, and the number of requests made. *)
Record hc : Type := Hc {
  clock : Z;
  attempt : nat
}.

Definition time_time : M hc Z :=
  s ←' get;;
  ret (clock s).

Definition requests_get (net : network) (url : string) : M hc get_outcome :=
  s ←' get;;
  emit (EvHttpGet url);;'
  put (Hc (clock s + latency net (attempt s)) (S (attempt s)));;'
  ret (answer net (attempt s)).

(** [time.sleep(secs)] raises on a negative length. *)
Definition time_sleep (ms : Z) : M hc unit :=
  if decide (ms < 0) then raise (ValueError "sleep length must be non-negative")
  else
    s ←' get;;
    emit (EvSleep ms);;'
    put (Hc (clock s + ms) (attempt s)).

(** One pass through the body of [while True]; [Some tt] is [return],
    [None] is falling through to the next pass. *)
Definition check_server_body (net : network) (total_timeout retry_interval start_time : Z)
  : M hc (option unit) :=
  response ←' requests_get net "/health/";;
  match response with
  | RequestException =>
      now ←' time_time;;
      if decide (now - start_time >= total_timeout)
      then raise (ConnectionError "Cannot reach vLLM server")
      else (time_sleep retry_interval;;' ret None)
  | Response status_code =>
      if decide (status_code = 200)
      then ret (Some tt)
      else (time_sleep retry_interval;;' ret None)
  end.

(** The loop, cut after [fuel] passes: [Ok None] says the loop is still
    going round. *)
Fixpoint check_server_loop (net : network) (total_timeout retry_interval start_time : Z)
    (fuel : nat) : M hc (option unit) :=
  match fuel with
  | O => ret None
  | S fuel' =>
      r ←' check_server_body net total_timeout retry_interval start_time;;
      match r with
      | Some tt => ret (Some tt)
      | None => check_server_loop net total_timeout retry_interval start_time fuel'
      end
  end.

Definition check_server (net : network) (total_timeout retry_interval : Z) (fuel : nat)
  : M hc (option unit) :=
  start_time ←' time_time;;
  check_server_loop net total_timeout retry_interval start_time fuel.

(** *** Weight synchronisation (lines 141-170) *)

Record VLLMClient : Type := mkClient {
  host : string;
  server_port : Z;
  group_port : Z;
  rank : option Z;
  pynccl_comm : option communicator
}.

(** The client and the server it talks to.  [http_fault], when set, is
    the status the HTTP layer answers with in place of running the
    endpoint. *)
Record world : Type := World {
  client : VLLMClient;
  script_args : Server.ScriptArguments;
  connections : list worker;
  http_fault : option Z
}.

Definition set_client (c : VLLMClient) (w : world) : world :=
  World c (script_args w) (connections w) (http_fault w).
Definition set_connections (conns : list worker) (w : world) : world :=
  World (client w) (script_args w) conns (http_fault w).

Record response (A : Type) : Type := mkResponse {
  status_code : Z;
  json : option A
}.
Arguments mkResponse {A} _ _.
Arguments status_code {A} _.
Arguments json {A} _.

(** A request to an endpoint that does not block: 200 with the
    endpoint's answer. *)
Definition http {A} (ev : event) (endpoint : list worker → A * list worker)
  : M world (response A) :=
  w ←' get;;
  emit ev;;'
  match http_fault w with
  | Some code => ret (mkResponse code None)
  | None =>
      let '(a, conns) := endpoint (connections w) in
      put (set_connections conns w);;'
      ret (mkResponse 200 (Some a))
  end.

Definition init_communicator : M world unit :=
  w ←' get;;
  response ←' http (EvHttpGet "/get_world_size/")
                (λ conns, (Server.get_world_size (script_args w), conns));;
  vllm_world_size ←'
    (if decide (status_code response = 200)
     then match json response with
          | Some v => ret v
          | None => raise (Exception "response has no JSON body")
          end
     else raise (Exception "World size request failed"));;
  let world_size := vllm_world_size + 1 in
  w ←' get;;
  let self := client w in
  put (set_client (mkClient (host self) (server_port self) (group_port self)
                     (Some vllm_world_size) (pynccl_comm self)) w);;'
  w ←' get;;
  let self := client w in
  response ←' http (EvHttpPost "/init_communicator/")
                (Server.init_communicator "0.0.0.0" (group_port self) world_size);;
  if decide (status_code response ≠ 200)
  then raise (Exception "Init communicator failed")
  else
    emit (EvSleep 100);;'
    w ←' get;;
    let self := client w in
    match rank self with
    | None => raise AttributeError
    | Some self_rank =>
        let pg := ProcessGroup (host self) (group_port self) self_rank world_size in
        emit (EvCreateGroup pg);;'
        put (set_client (mkClient (host self) (server_port self) (group_port self)
                           (rank self) (Some (Communicator pg "cuda:0"))) w);;'
        emit (EvAtexitRegister "close_communicator")
    end.

(** [str(weights.dtype)] *)
Definition str_dtype (weights : tensor) : string := "torch." +:+ t_dtype weights.

Definition update_named_param (name : string) (weights : tensor) : M world unit :=
  let dtype := str_dtype weights in
  let shape := t_shape weights in
  response ←' http (EvHttpPost "/update_named_param/")
                (Server.update_named_param name dtype shape);;
  if decide (status_code response ≠ 200)
  then raise (Exception "Update named param failed")
  else
    w ←' get;;
    let self := client w in
    match pynccl_comm self with
    | None => raise AttributeError
    | Some comm =>
        emit (EvBroadcast comm weights (rank self));;'
        emit (EvBarrier comm)
    end.

(** The shards get through what the control plane sent them. *)
Definition shards_run (w : world) : world :=
  set_connections (run <$> connections w) w.
End Client.

(** ** Vocabulary of the statements *)

Module Spec.
Import Worker.

(** A connection is idle when its process runs and nothing is pending
    in either direction of its pipe. *)
Definition idle (conn : worker) : Prop :=
  status conn = Running ∧ inbox conn = [] ∧ outbox conn = [].

(** The connection after its worker has received [c] and the parent has
    taken the worker's reply. *)
Definition answered (c : command) (conn : worker) : worker :=
  Mk (engine conn) [] [] (handled conn ++ [Cmd c]) (wlog conn) Running (exits_in conn).

(** A connection is fresh when its process runs, its pipe to the worker
    is empty and none of its tensor-parallel workers has a
    communicator. *)
Definition fresh (conn : worker) : Prop :=
  status conn = Running ∧ inbox conn = []
  ∧ ∀ s, s ∈ tp_workers (engine conn) → Ext.pynccl_comm s = None.

(** The completions of one prompt, as the endpoint lists them. *)
Definition ids_of (cmpl : string → SamplingParams → RequestOutput)
    (sp : SamplingParams) (p : string) : list (list Z) :=
  token_ids <$> outputs (cmpl p sp).

(** The answer that holds the completions of the given prompts, prompt
    after prompt. *)
Definition answer_for (cmpl : string → SamplingParams → RequestOutput)
    (sp : SamplingParams) (ps : list string) : list (list Z) :=
  concat (ids_of cmpl sp <$> ps).

(** The process ends of its own accord before a join with the timeout of
    ten seconds runs out, when that join begins [elapsed] milliseconds
    into the shutdown. *)
Definition ends_within (elapsed : Z) (p : worker) : bool :=
  match exits_in p with
  | Some d => bool_decide (d ≤ elapsed + 10000)
  | None => false
  end.

(** How long that join takes: no time for a process that has ended, the
    time the process still needs when it ends before the timeout, and the
    ten seconds of the timeout otherwise. *)
Definition join_wait (elapsed : Z) (p : worker) : Z :=
  if Server.is_alive p
  then if ends_within elapsed p
       then match exits_in p with Some d => Z.max 0 (d - elapsed) | None => 0 end
       else 10000
  else 0.

(** When the joins of the processes begin, the first one [elapsed]
    milliseconds into the shutdown and each next one when the join before
    it has returned (a terminate and the join behind it take no time). *)
Fixpoint join_starts (elapsed : Z) (processes : list worker) : list Z :=
  match processes with
  | [] => []
  | p :: processes' => elapsed :: join_starts (elapsed + join_wait elapsed p) processes'
  end.

(** What the shutdown logs for the process [pid] whose join begins
    [elapsed] milliseconds into the shutdown: the timed join, and a
    terminate with a second join when the process runs and does not end
    before the timeout. *)
Definition shutdown_log (pid : nat) (elapsed : Z) (p : worker) : list event :=
  EvJoin pid (Some 10000)
  :: (if Server.is_alive p && negb (ends_within elapsed p)
      then [EvTerminate pid; EvJoin pid None] else []).

(** What the shutdown does to one process whose join begins [elapsed]
    milliseconds into the shutdown: nothing but its status changes; a
    process that has ended keeps its status, a running one that ends
    before the timeout has exited, and any other running one has been
    terminated. *)
Definition shut_down (elapsed : Z) (p p' : worker) : Prop :=
  engine p' = engine p ∧ inbox p' = inbox p ∧ outbox p' = outbox p
  ∧ handled p' = handled p ∧ wlog p' = wlog p ∧ exits_in p' = exits_in p
  ∧ Server.is_alive p' = false
  ∧ (Server.is_alive p = false → status p' = status p)
  ∧ (Server.is_alive p = true → ends_within elapsed p = true → status p' = Exited)
  ∧ (Server.is_alive p = true → ends_within elapsed p = false → status p' = Terminated).

(** Every process has been sent a [shutdown] command. *)
Definition shutdown_requested (processes : list worker) : Prop :=
  ∀ p, p ∈ processes → Cmd Shutdown ∈ inbox p ++ handled p.
End Spec.

(** ** Sample data, to run the model on *)

Module Sample.
Import Worker.

(** A tensor-parallel worker with an active communicator in a group of
    two, and one with none. *)
Definition ext_active : Ext.state :=
  Ext.State "cuda:0" 0 (λ _ buffer, Tensor (t_dtype buffer) (t_shape buffer) [7; 7])
    (Some (Communicator (ProcessGroup "0.0.0.0" 51216 0 2) "cuda:0")) (Some 1) ∅.

Definition ext_blank : Ext.state :=
  Ext.State "cuda:0" 0 (λ _ buffer, Tensor (t_dtype buffer) (t_shape buffer) [7; 7])
    None None ∅.

(** An engine that completes a prompt with one output, whose only token
    is the length of the prompt. *)
Definition echo (p : string) (sp : SamplingParams) : RequestOutput :=
  mkRequestOutput [] [mkCompletionOutput [Z.of_nat (String.length p)] p].

Definition shard (reset_ok : bool) : worker :=
  Mk (Llm echo reset_ok [ext_blank]) [] [] [] [] Running None.

(** A shard process that ends by itself [d] milliseconds into the
    shutdown. *)
Definition shard_exiting (d : Z) : worker :=
  Mk (Llm echo true [ext_blank]) [] [] [] [] Running (Some d).

Definition args (tp dp : Z) : Server.ScriptArguments :=
  Server.mkScriptArguments "model" tp dp "0.0.0.0" 8000.

Definition request (prompts : list string) : Server.GenerateRequest :=
  Server.mkGenerateRequest prompts 1 1%Q 1%Q 1%Q (-1) 0%Q 16 None.

Definition weights : tensor := Tensor "float32" [2; 1] [3; 4].

(** A client that has not joined a group, facing one shard. *)
Definition world : Client.world :=
  Client.World (Client.mkClient "0.0.0.0" 8000 51216 None None) (args 1 1) [shard true] None.

(** A client that has joined as rank 1 of 2. *)
Definition world_joined : Client.world :=
  Client.World
    (Client.mkClient "0.0.0.0" 8000 51216 (Some 1)
       (Some (Communicator (ProcessGroup "0.0.0.0" 51216 1 2) "cuda:0")))
    (args 1 1) [shard true] None.

(** A server that refuses connections for the first three requests and
    answers 200 from then on; a request takes 5 ms. *)
Definition net_late : Client.network :=
  Client.Network (λ _, 5)
    (λ k, if decide (k < 3)%nat then Client.RequestException else Client.Response 200).

(** A server that never answers, and one that always answers 503. *)
Definition net_down : Client.network :=
  Client.Network (λ _, 5) (λ _, Client.RequestException).

Definition net_unhealthy : Client.network :=
  Client.Network (λ _, 5) (λ _, Client.Response 503).
End Sample.

(** ** More of the client: [__init__], [generate], [update_model_params],
    [reset_prefix_cache], [close_communicator] (vllm_client.py) *)

Module ClientOps.
Import Worker Client.

(** A call that never returns. *)
Definition block {σ A} : M σ A := λ s, (Blocked, s, []).

(** A request to an endpoint that may raise or block: 200 with the
    endpoint's answer; 500 without a body when the endpoint raises, as
    FastAPI answers an exception no handler takes; no response at all
    while the endpoint blocks, the request having no timeout. *)
Definition http_call {A} (ev : event) (endpoint : list worker → result A * list worker)
  : M world (response A) :=
  w ←' get;;
  emit ev;;'
  match http_fault w with
  | Some code => ret (mkResponse code None)
  | None =>
      let '(r, conns) := endpoint (connections w) in
      put (set_connections conns w);;'
      match r with
      | Ok a => ret (mkResponse 200 (Some a))
      | Raise _ => ret (mkResponse 500 None)
      | Blocked => block
      end
  end.

(** [__init__]: the health check with [connection_timeout] and the default
    retry interval of two seconds, then a client that has no rank and no
    communicator yet.  [None] says the check is still going round. *)
Definition new (host : string) (server_port group_port connection_timeout : Z)
    (net : network) (fuel : nat) : M hc (option VLLMClient) :=
  r ←' check_server net connection_timeout 2000 fuel;;
  match r with
  | Some tt => ret (Some (mkClient host server_port group_port None None))
  | None => ret None
  end.

(** [generate]; the request holds the fields of the JSON body. *)
Definition generate (request : Server.GenerateRequest) : M world (list (list Z)) :=
  w ←' get;;
  response ←' http_call (EvHttpPost "/generate/")
                (Server.generate (script_args w) request);;
  if decide (status_code response = 200)
  then match json response with
       | Some completion_ids => ret completion_ids
       | None => raise (Exception "response has no JSON body")
       end
  else raise (Exception "Generate request failed").

Definition reset_prefix_cache : M world unit :=
  response ←' http_call (EvHttpPost "/reset_prefix_cache/") Server.reset_prefix_cache;;
  if decide (status_code response ≠ 200)
  then raise (Exception "Reset prefix cache failed")
  else ret tt.

(** [close_communicator]; [reachable] says whether the request gets to
    the server, and a [ConnectionError] of the request is passed over. *)
Definition close_communicator (reachable : bool) : M world unit :=
  if reachable
  then
    response ←' http (EvHttpPost "/close_communicator/") Server.close_communicator;;
    if decide (status_code response ≠ 200)
    then raise (Exception "Close communicator failed")
    else ret tt
  else
    emit (EvHttpPost "/close_communicator/").

(** [for name, param in model.named_parameters():]
    [    self.update_named_param(name, param.data)] *)
Fixpoint update_model_params (named_parameters : list (string * tensor)) : M world unit :=
  match named_parameters with
  | [] => ret tt
  | (name, data) :: rest =>
      update_named_param name data;;'
      update_model_params rest
  end.
End ClientOps.

(** ** Vocabulary of the further statements *)

Module Inv.
Import Worker.

(** The two fields of the extension go together: no communicator and no
    client rank, or a communicator joined under the worker's own rank and
    the last rank of its group as client rank. *)
Definition coherent (s : Ext.state) : Prop :=
  match Ext.pynccl_comm s, Ext.client_rank s with
  | None, None => True
  | Some c, Some r =>
      r = pg_world_size (comm_group c) - 1 ∧ pg_rank (comm_group c) = Ext.world_rank s
  | _, _ => False
  end.

(** A broadcast names the last rank of its group as source. *)
Definition from_last_rank (ev : event) : Prop :=
  match ev with
  | EvBroadcast c _ src => src = Some (pg_world_size (comm_group c) - 1)
  | _ => True
  end.

(** The command asks for a reply. *)
Definition is_call (a : arrival) : bool :=
  match a with
  | Cmd (Invoke call _) => true
  | _ => false
  end.

(** The process has ended and has left nothing to receive. *)
Definition dead (conn : worker) : Prop :=
  status conn ≠ Running ∧ outbox conn = [].

(** The clock when request [k] of the health check starts, every request
    before it having been followed by a sleep. *)
Fixpoint clock_at (net : Client.network) (retry_interval start : Z) (k : nat) : Z :=
  match k with
  | O => start
  | S j => clock_at net retry_interval start j + Client.latency net j + retry_interval
  end.

(** Request [k] of the health check neither ends the check nor makes it
    raise: a status other than 200, or a failure met before the timeout. *)
Definition retried (net : Client.network) (total_timeout retry_interval start : Z)
    (k : nat) : Prop :=
  match Client.answer net k with
  | Client.RequestException =>
      clock_at net retry_interval start k + Client.latency net k - start < total_timeout
  | Client.Response code => code ≠ 200
  end.

(** The tensor-parallel worker after [update_named_param]. *)
Definition updated (name dtype : string) (shape : list Z) (s : Ext.state) : Ext.state :=
  Ext.set_model
    (<[name := Ext.incoming s (Ext.client_rank s) (Tensor dtype shape [])]> (Ext.model s)) s.
End Inv.

(** ** More sample data *)

Module Fixture.
Import Worker.

Definition init_cmd : command :=
  Invoke fire_and_forget (CallCollectiveRpc (RpcInitCommunicator "0.0.0.0" 51216 2)).

Definition update_cmd : command :=
  Invoke fire_and_forget (CallCollectiveRpc (RpcUpdateNamedParam "w" "float32" [2; 1])).

(** A running shard that has not yet received an init, an update and a
    cache reset. *)
Definition busy_shard : worker :=
  Mk (Llm Sample.echo true [Sample.ext_blank])
    [Cmd init_cmd; Cmd update_cmd; Cmd (Invoke call CallResetPrefixCache)]
    [] [] [] Running None.

(** A shard whose worker has joined the group. *)
Definition joined_shard : worker :=
  Mk (Llm Sample.echo true [Sample.ext_active]) [] [] [] [] Running None.

(** A shard process that crashed, with a call left in its pipe. *)
Definition crashed_shard : worker :=
  Mk (Llm Sample.echo true [Sample.ext_blank])
    [Cmd (Invoke call CallResetPrefixCache)] [] [] []
    (Crashed (RuntimeError "Communicator not initialised. Call init_communicator() first."))
    None.

Definition client : Client.VLLMClient := Client.mkClient "0.0.0.0" 8000 51216 None None.

(** The fleet [main] spawns for two shards, and a client facing it. *)
Definition world_two : Client.world :=
  Client.World client (Sample.args 1 2)
    (Server.spawn (λ _, Sample.shard true) (Sample.args 1 2)) None.

(** A server that answers 503 whatever the request. *)
Definition world_unavailable : Client.world :=
  Client.World client (Sample.args 1 1) [Sample.shard true] (Some 503).

(** A server started with [data_parallel_size = 0]. *)
Definition world_no_shard : Client.world :=
  Client.World client (Sample.args 1 0) (Server.spawn (λ _, Sample.shard true) (Sample.args 1 0))
    None.

(** A fleet of which one shard fails to reset its cache. *)
Definition world_failing_reset : Client.world :=
  Client.World client (Sample.args 1 2) [Sample.shard true; Sample.shard false] None.

Definition bias : tensor := Tensor "float32" [1] [9].
End Fixture.

(** * Part II: facts *)

(** ** The balanced split *)

Section chunk_facts.
Import Chunk.
Context {A : Type}.
Implicit Types (lst : list A) (k r : Z) (m : nat).

Lemma chunk_start_step k r i :
  0 ≤ i → 0 ≤ r →
  chunk_start k r (i + 1) = chunk_start k r i + k + (if decide (i < r) then 1 else 0).
Proof. unfold chunk_start. intros. case_decide; lia. Qed.

Lemma chunk_start_mono k r i j :
  0 ≤ k → 0 ≤ r → 0 ≤ i ≤ j → chunk_start k r i ≤ chunk_start k r j.
Proof. unfold chunk_start. intros. nia. Qed.

Lemma chunk_start_last (len n : Z) :
  0 < n → chunk_start (len `div` n) (len `mod` n) n = len.
Proof.
  intros Hn. unfold chunk_start.
  pose proof (Z.mod_pos_bound len n Hn).
  pose proof (Z.div_mod len n ltac:(lia)). lia.
Qed.

Lemma slice_in_range (a b : Z) lst :
  0 ≤ a ≤ b → b ≤ Z.of_nat (length lst) →
  Chunk.slice a b lst = take (Z.to_nat (b - a)) (drop (Z.to_nat a) lst).
Proof.
  intros Hab Hb. unfold Chunk.slice, Chunk.norm_index.
  repeat case_decide; try lia.
  rewrite !Z.min_l by lia. done.
Qed.

(** The first [m] chunks, concatenated, are the prefix of the list that
    ends where chunk [m] starts. *)
Lemma concat_chunks_prefix k r lst m :
  0 ≤ k → 0 ≤ r →
  chunk_start k r (Z.of_nat m) ≤ Z.of_nat (length lst) →
  concat ((λ i, Chunk.slice (chunk_start k r i) (chunk_start k r (i + 1)) lst)
            <$> seqZ 0 (Z.of_nat m))
  = take (Z.to_nat (chunk_start k r (Z.of_nat m))) lst.
Proof.
  intros Hk Hr. induction m as [|m IH]; intros Hm.
  - unfold chunk_start. simpl. by rewrite Z.min_l by lia.
  - replace (Z.of_nat (S m)) with (Z.of_nat m + 1) in * by lia.
    pose proof (chunk_start_mono k r (Z.of_nat m) (Z.of_nat m + 1) Hk Hr ltac:(lia)).
    pose proof (chunk_start_mono k r 0 (Z.of_nat m) Hk Hr ltac:(lia)) as H0.
    unfold chunk_start at 1 in H0.
    rewrite seqZ_app by lia. rewrite fmap_app, concat_app, IH by lia.
    simpl. rewrite app_nil_r.
    replace (Z.of_nat 0 + (0 + Z.of_nat m)) with (Z.of_nat m) by lia.
    rewrite Z.min_l in H0 by lia.
    rewrite slice_in_range by lia.
    rewrite take_take_drop. f_equal. lia.
Qed.

Lemma chunk_list_unfold lst (n : Z) :
  n ≠ 0 →
  chunk_list lst n =
    Ok ((λ i, slice (chunk_start (Z.of_nat (length lst) `div` n)
                                 (Z.of_nat (length lst) `mod` n) i)
                    (chunk_start (Z.of_nat (length lst) `div` n)
                                 (Z.of_nat (length lst) `mod` n) (i + 1)) lst)
          <$> seqZ 0 n).
Proof. intros Hn. unfold chunk_list. by rewrite decide_False. Qed.

(** Chunk [i] of a split into [n >= 1] parts, with its length. *)
Lemma chunk_lookup lst (n : Z) (i : nat) chunks c :
  1 ≤ n → chunk_list lst n = Ok chunks → chunks !! i = Some c →
  let size := Z.of_nat (length lst) `div` n in
  let remainder := Z.of_nat (length lst) `mod` n in
  Z.of_nat i < n
  ∧ c = take (length c) (drop (Z.to_nat (chunk_start size remainder (Z.of_nat i))) lst)
  ∧ Z.of_nat (length c) = (if decide (Z.of_nat i < remainder) then size + 1 else size).
Proof.
  intros Hn Hc Hi size remainder.
  rewrite chunk_list_unfold in Hc by lia. injection Hc as <-.
  rewrite list_lookup_fmap in Hi.
  destruct (seqZ 0 n !! i) as [j|] eqn:Hj; [|done].
  apply lookup_seqZ in Hj as [-> Hlt]. simpl in Hi. injection Hi as <-.
  fold size remainder. rewrite Z.add_0_l.
  assert (0 ≤ size) by (apply Z.div_pos; lia).
  pose proof (Z.mod_pos_bound (Z.of_nat (length lst)) n ltac:(lia)) as Hr.
  fold remainder in Hr.
  pose proof (chunk_start_step size remainder (Z.of_nat i) ltac:(lia) ltac:(lia)) as Hs.
  pose proof (chunk_start_mono size remainder 0 (Z.of_nat i) ltac:(lia) ltac:(lia) ltac:(lia)) as H0.
  pose proof (chunk_start_mono size remainder (Z.of_nat i + 1) n ltac:(lia) ltac:(lia) ltac:(lia)) as Hle.
  pose proof (chunk_start_last (Z.of_nat (length lst)) n ltac:(lia)) as Hlast.
  fold size remainder in Hlast. rewrite Hlast in Hle.
  unfold chunk_start at 1 in H0. rewrite Z.min_l in H0 by lia.
  rewrite slice_in_range by (case_decide; lia).
  split; [done|].
  assert (Hlen : Z.of_nat (length (take (Z.to_nat (chunk_start size remainder (Z.of_nat i + 1)
                   - chunk_start size remainder (Z.of_nat i)))
                (drop (Z.to_nat (chunk_start size remainder (Z.of_nat i))) lst)))
          = if decide (Z.of_nat i < remainder) then size + 1 else size).
  { rewrite length_take, length_drop. case_decide; lia. }
  split; [|done].
  f_equal. rewrite length_take, length_drop. case_decide; lia.
Qed.

Lemma chunk_list_length lst (n : Z) chunks :
  1 ≤ n → chunk_list lst n = Ok chunks → Z.of_nat (length chunks) = n.
Proof.
  intros Hn Hc. rewrite chunk_list_unfold in Hc by lia. injection Hc as <-.
  rewrite length_fmap, length_seqZ. lia.
Qed.

Lemma chunk_list_concat lst (n : Z) chunks :
  1 ≤ n → chunk_list lst n = Ok chunks → concat chunks = lst.
Proof.
  intros Hn Hc. rewrite chunk_list_unfold in Hc by lia. injection Hc as <-.
  assert (0 ≤ Z.of_nat (length lst) `div` n) by (apply Z.div_pos; lia).
  pose proof (Z.mod_pos_bound (Z.of_nat (length lst)) n ltac:(lia)).
  pose proof (chunk_start_last (Z.of_nat (length lst)) n ltac:(lia)) as Hlast.
  pose proof (concat_chunks_prefix (Z.of_nat (length lst) `div` n)
                (Z.of_nat (length lst) `mod` n) lst (Z.to_nat n)) as Hcat.
  rewrite Z2Nat.id, Hlast, Nat2Z.id in Hcat by lia.
  rewrite Hcat by lia. by rewrite take_ge.
Qed.

(** With fewer items than shards, the first chunks hold one item each and
    the others are empty. *)
Lemma chunk_list_short lst (n : Z) :
  Z.of_nat (length lst) < n →
  chunk_list lst n
  = Ok (((λ x, [x]) <$> lst) ++ replicate (Z.to_nat n - length lst) []).
Proof.
  intros Hlt. assert (Hn : 1 ≤ n) by lia.
  pose proof (chunk_list_unfold lst n ltac:(lia)) as Hc.
  pose proof (chunk_list_length _ _ _ Hn Hc) as Hlen.
  rewrite Hc. f_equal. apply list_eq. intros i.
  destruct (_ !! i) as [c|] eqn:Hi.
  - destruct (chunk_lookup lst n i _ c Hn Hc Hi) as (Hin & Hrun & Hsize).
    rewrite Z.div_small, Z.mod_small in Hrun, Hsize by lia.
    unfold chunk_start in Hrun. symmetry.
    destruct (decide (Z.of_nat i < Z.of_nat (length lst))) as [Hil|Hil].
    + destruct (lookup_lt_is_Some_2 lst i ltac:(lia)) as [x Hx].
      rewrite lookup_app_l by (rewrite length_fmap; lia).
      rewrite list_lookup_fmap, Hx. simpl. f_equal.
      rewrite Hrun. replace (length c) with 1%nat by lia.
      replace (Z.to_nat (Z.of_nat i * 0 + Z.of_nat i `min` Z.of_nat (length lst))) with i by lia.
      by rewrite (drop_S _ _ _ Hx).
    + rewrite lookup_app_r by (rewrite length_fmap; lia).
      rewrite lookup_replicate_2 by (rewrite length_fmap; lia).
      f_equal. destruct c; [done|simpl in Hsize; lia].
  - apply lookup_ge_None in Hi. symmetry. apply lookup_ge_None.
    rewrite length_app, length_fmap, length_replicate. lia.
Qed.

(** C1.  For a list of length L and a shard count N >= 1, [chunk_list]
    returns exactly N chunks; chunk [i] is the contiguous run of the list
    that starts at [i * size + min i remainder], and has [size + 1] items
    when [i < remainder] and [size] items otherwise, where [size = L // N]
    and [remainder = L % N]; so any two chunk sizes differ by at most 1,
    and the chunks concatenated are the original list. *)
Theorem chunk_list_balanced_partition lst (n : Z) :
  1 ≤ n →
  let size := Z.of_nat (length lst) `div` n in
  let remainder := Z.of_nat (length lst) `mod` n in
  ∃ chunks,
    chunk_list lst n = Ok chunks
    ∧ Z.of_nat (length chunks) = n
    ∧ (∀ (i : nat) c, chunks !! i = Some c →
         c = take (length c) (drop (Z.to_nat (chunk_start size remainder (Z.of_nat i))) lst)
         ∧ Z.of_nat (length c) = (if decide (Z.of_nat i < remainder) then size + 1 else size))
    ∧ (∀ c c', c ∈ chunks → c' ∈ chunks → (length c ≤ length c' + 1)%nat)
    ∧ concat chunks = lst.
Proof.
  intros Hn size remainder.
  exists ((λ i, slice (chunk_start size remainder i) (chunk_start size remainder (i + 1)) lst)
            <$> seqZ 0 n).
  pose proof (chunk_list_unfold lst n ltac:(lia)) as Hc. fold size remainder in Hc.
  assert (Hsizes : ∀ (i : nat) c,
            ((λ i, slice (chunk_start size remainder i) (chunk_start size remainder (i + 1)) lst)
               <$> seqZ 0 n) !! i = Some c →
            Z.of_nat (length c) = (if decide (Z.of_nat i < remainder) then size + 1 else size)).
  { intros i c Hi. by destruct (chunk_lookup lst n i _ c Hn Hc Hi) as (_ & _ & ?). }
  split; [done|]. split; [by eapply chunk_list_length|]. split; [|split].
  - intros i c Hi. split; [|by apply Hsizes].
    by destruct (chunk_lookup lst n i _ c Hn Hc Hi) as (_ & ? & _).
  - intros c c' [i Hi]%list_elem_of_lookup [j Hj]%list_elem_of_lookup.
    apply Hsizes in Hi, Hj. repeat case_decide; lia.
  - by eapply chunk_list_concat.
Qed.
End chunk_facts.

(** Five items on two shards: the sizes are 3 and 2. *)
Lemma chunk_list_balanced_partition_witness :
  ∃ chunks : list (list nat),
    Chunk.chunk_list [0; 1; 2; 3; 4]%nat 2 = Ok chunks
    ∧ length <$> chunks = [3; 2]%nat
    ∧ concat chunks = [0; 1; 2; 3; 4]%nat.
Proof.
  destruct (chunk_list_balanced_partition [0; 1; 2; 3; 4]%nat 2 ltac:(lia))
    as (chunks & Hc & _ & _ & _ & Hcat).
  exists chunks. vm_compute in Hc. injection Hc as <-. done.
Defined.

(** ** The weight-sync state machine of a shard worker *)

Section ext_facts.
Implicit Types (s : Ext.state) (c : communicator).

Lemma ext_init_fresh s host port world_size :
  Ext.pynccl_comm s = None →
  let pg := ProcessGroup host port (Ext.world_rank s) world_size in
  Ext.init_communicator host port world_size s
  = (Ok tt,
     Ext.State (Ext.device s) (Ext.world_rank s) (Ext.incoming s)
       (Some (Communicator pg (Ext.device s))) (Some (world_size - 1)) (Ext.model s),
     [EvCreateGroup pg]).
Proof. destruct s; simpl; intros ->. reflexivity. Qed.

Lemma ext_init_active s c host port world_size :
  Ext.pynccl_comm s = Some c →
  Ext.init_communicator host port world_size s
  = (Raise (RuntimeError
       "Weight update group already initialised; call close_communicator() first."),
     s, []).
Proof. destruct s; simpl; intros ->. reflexivity. Qed.

Lemma ext_update_inactive s name dtype shape :
  Ext.pynccl_comm s = None →
  Ext.update_named_param name dtype shape s
  = (Raise (RuntimeError "Communicator not initialised. Call init_communicator() first."),
     s, []).
Proof. destruct s; simpl; intros ->. reflexivity. Qed.

Lemma ext_update_active s c name dtype shape :
  Ext.pynccl_comm s = Some c →
  let buffer := Tensor dtype shape [] in
  let weight := Ext.incoming s (Ext.client_rank s) buffer in
  Ext.update_named_param name dtype shape s
  = (Ok tt,
     Ext.set_model (<[name := weight]> (Ext.model s)) s,
     [EvTorchEmpty shape dtype (Ext.device s);
      EvBroadcast c buffer (Ext.client_rank s);
      EvBarrier c;
      EvLoadWeights name weight]).
Proof. destruct s; simpl; intros ->. reflexivity. Qed.

Lemma ext_close_active s c :
  Ext.pynccl_comm s = Some c →
  Ext.close_communicator s
  = (Ok tt,
     Ext.State (Ext.device s) (Ext.world_rank s) (Ext.incoming s) None None (Ext.model s),
     [EvRelease c]).
Proof. destruct s; simpl; intros ->. reflexivity. Qed.

Lemma ext_close_inactive s :
  Ext.pynccl_comm s = None → Ext.close_communicator s = (Ok tt, s, []).
Proof. destruct s; simpl; intros ->. reflexivity. Qed.

(** C4.  Misuse of the group state raises and acts on nothing: on a
    worker with an active communicator [init_communicator] raises a
    [RuntimeError], logs no event and leaves the state as it was, so a
    second [init_communicator] after a first one fails; on a worker with
    no communicator [update_named_param] raises a [RuntimeError] with no
    event logged (no buffer, no broadcast, no barrier, no load) and the
    state, the model with it, as it was. *)
Theorem group_state_misuse_raises s host port world_size name dtype shape :
  (∀ c, Ext.pynccl_comm s = Some c →
     ∃ msg, Ext.init_communicator host port world_size s = (Raise (RuntimeError msg), s, []))
  ∧ (Ext.pynccl_comm s = None →
     ∃ s1 log, Ext.init_communicator host port world_size s = (Ok tt, s1, log)
       ∧ ∀ host' port' world_size', ∃ msg,
           Ext.init_communicator host' port' world_size' s1
           = (Raise (RuntimeError msg), s1, []))
  ∧ (Ext.pynccl_comm s = None →
     ∃ msg, Ext.update_named_param name dtype shape s = (Raise (RuntimeError msg), s, [])).
Proof.
  split; [|split].
  - intros c Hc. eexists. by apply ext_init_active with c.
  - intros Hc. do 2 eexists. split; [by apply ext_init_fresh|].
    intros host' port' ws'. eexists. by eapply ext_init_active.
  - intros Hc. eexists. by apply ext_update_inactive.
Qed.

(** C5.  [close_communicator] always succeeds.  With a communicator
    active it releases it and clears [pynccl_comm] and [client_rank];
    with none active it changes nothing and logs nothing.  Closing again
    after a close succeeds, changes nothing and logs nothing, so two
    closes in a row leave the state one close leaves. *)
Theorem close_communicator_idempotent s :
  ∃ s1 log,
    Ext.close_communicator s = (Ok tt, s1, log)
    ∧ Ext.pynccl_comm s1 = None
    ∧ Ext.model s1 = Ext.model s
    ∧ (∀ c, Ext.pynccl_comm s = Some c →
         log = [EvRelease c] ∧ Ext.client_rank s1 = None)
    ∧ (Ext.pynccl_comm s = None → s1 = s ∧ log = [])
    ∧ Ext.close_communicator s1 = (Ok tt, s1, []).
Proof.
  destruct (Ext.pynccl_comm s) as [c|] eqn:Hc.
  - do 2 eexists. split; [by apply ext_close_active|].
    split; [done|]. split; [done|]. split; [by intros c' [= <-]|].
    split; [done|]. done.
  - do 2 eexists. split; [by apply ext_close_inactive|].
    split; [done|]. split; [done|]. split; [done|].
    split; [done|]. by apply ext_close_inactive.
Qed.
End ext_facts.

(** A second [init_communicator] on a worker that has joined, and an
    update on a worker that has not. *)
Lemma group_state_misuse_raises_witness :
  (∃ msg, Ext.init_communicator "0.0.0.0" 51216 2 Sample.ext_active
          = (Raise (RuntimeError msg), Sample.ext_active, []))
  ∧ (∃ msg, Ext.update_named_param "w" "float32" [4; 4] Sample.ext_blank
            = (Raise (RuntimeError msg), Sample.ext_blank, [])).
Proof.
  destruct (group_state_misuse_raises Sample.ext_active "0.0.0.0" 51216 2 "w" "float32" [4; 4])
    as (Hinit & _ & _).
  destruct (group_state_misuse_raises Sample.ext_blank "0.0.0.0" 51216 2 "w" "float32" [4; 4])
    as (_ & _ & Hupd).
  split.
  - exact (Hinit _ eq_refl).
  - exact (Hupd eq_refl).
Defined.

(** ** Fan-out of a weight-sync call to the shards *)

Section fan_out_facts.
Import Worker.

(** When the method succeeds on every tensor-parallel worker, so does
    [collective_rpc], and every worker has taken its step. *)
Lemma run_each_all_ok (m : M Ext.state unit) (f : Ext.state → Ext.state)
    (g : Ext.state → list event) (ws : list Ext.state) :
  (∀ s, s ∈ ws → m s = (Ok tt, f s, g s)) →
  run_each m ws = (Ok (length ws), f <$> ws, concat (g <$> ws)).
Proof.
  induction ws as [|s ws IH]; intros Hall; [done|].
  simpl. rewrite (Hall s) by apply list_elem_of_here.
  rewrite IH; [done|]. intros s' Hs'. apply Hall. by apply list_elem_of_further.
Qed.

(** A running worker with an empty pipe that is sent one fire-and-forget
    [collective_rpc] which succeeds on each of its tensor-parallel
    workers. *)
Lemma run_fire_and_forget_ok (w : worker) (r : rpc) f g :
  status w = Running → inbox w = [] →
  (∀ s, s ∈ tp_workers (engine w) → rpc_method r s = (Ok tt, f s, g s)) →
  let c := Invoke fire_and_forget (CallCollectiveRpc r) in
  run (send c w)
  = Mk (set_tp_workers (f <$> tp_workers (engine w)) (engine w)) [] (outbox w)
       (handled w ++ [Cmd c]) (wlog w ++ concat (g <$> tp_workers (engine w)))
       Running (exits_in w).
Proof.
  destruct w as [l inb outb hd lg st ex]. simpl. intros -> -> Hall.
  unfold run, send. simpl. unfold collective_rpc.
  rewrite (run_each_all_ok _ f g) by done. reflexivity.
Qed.
End fan_out_facts.

(** ** The client side of weight synchronisation *)

Section client_sync_facts.
Import Worker.

Lemma client_init_ok (w : Client.world) :
  Client.http_fault w = None →
  let self := Client.client w in
  let vllm_world_size := Server.get_world_size (Client.script_args w) in
  let world_size := vllm_world_size + 1 in
  let pg := ProcessGroup (Client.host self) (Client.group_port self) vllm_world_size world_size in
  Client.init_communicator w
  = (Ok tt,
     Client.World
       (Client.mkClient (Client.host self) (Client.server_port self) (Client.group_port self)
          (Some vllm_world_size) (Some (Communicator pg "cuda:0")))
       (Client.script_args w)
       (Server.fan_out (RpcInitCommunicator "0.0.0.0" (Client.group_port self) world_size)
          (Client.connections w))
       None,
     [EvHttpGet "/get_world_size/"; EvHttpPost "/init_communicator/"; EvSleep 100;
      EvCreateGroup pg; EvAtexitRegister "close_communicator"]).
Proof. destruct w as [[h sp gp rk cm] args conns fault]. simpl. intros ->. reflexivity. Qed.

Lemma client_update_ok (w : Client.world) (c : communicator) name weights :
  Client.http_fault w = None →
  Client.pynccl_comm (Client.client w) = Some c →
  Client.update_named_param name weights w
  = (Ok tt,
     Client.set_connections
       (Server.fan_out
          (RpcUpdateNamedParam name (Server.after_last_dot (Client.str_dtype weights))
             (t_shape weights))
          (Client.connections w)) w,
     [EvHttpPost "/update_named_param/";
      EvBroadcast c weights (Client.rank (Client.client w));
      EvBarrier c]).
Proof.
  destruct w as [[h sp gp rk cm] args conns fault]. simpl. intros -> ->. reflexivity.
Qed.
End client_sync_facts.

Section weight_sync_protocol.
Import Worker Spec.

(** C3.  On a shard worker with a communicator, [update_named_param]
    succeeds and does exactly four things, in this order: it allocates a
    buffer of the given shape and dtype on its device, broadcasts into
    it with the recorded client rank as source, waits at the barrier,
    and loads the received tensor into the model under the given name
    (the model afterwards maps the name to that tensor).  On the client,
    once the control plane has taken the request, [update_named_param]
    broadcasts its own tensor with its own rank as source and then waits
    at the barrier; after a successful [init_communicator] that rank is
    the last rank of the group. *)
Theorem update_named_param_steps (s : Ext.state) (c : communicator)
    (w : Client.world) (cc : communicator) (name dtype : string) (shape : list Z)
    (weights : tensor) :
  (Ext.pynccl_comm s = Some c →
     let buffer := Tensor dtype shape [] in
     let received := Ext.incoming s (Ext.client_rank s) buffer in
     ∃ s1, Ext.update_named_param name dtype shape s
           = (Ok tt, s1,
              [EvTorchEmpty shape dtype (Ext.device s);
               EvBroadcast c buffer (Ext.client_rank s);
               EvBarrier c;
               EvLoadWeights name received])
       ∧ Ext.model s1 = <[name := received]> (Ext.model s)
       ∧ Ext.pynccl_comm s1 = Some c
       ∧ Ext.client_rank s1 = Ext.client_rank s)
  ∧ (Client.http_fault w = None → Client.pynccl_comm (Client.client w) = Some cc →
     ∃ w1, Client.update_named_param name weights w
           = (Ok tt, w1,
              [EvHttpPost "/update_named_param/";
               EvBroadcast cc weights (Client.rank (Client.client w));
               EvBarrier cc])
       ∧ Client.client w1 = Client.client w)
  ∧ (Client.http_fault w = None →
     ∃ w1 log top,
       Client.init_communicator w = (Ok tt, w1, log)
       ∧ Client.pynccl_comm (Client.client w1) = Some top
       ∧ Client.rank (Client.client w1) = Some (pg_rank (comm_group top))
       ∧ pg_rank (comm_group top) = pg_world_size (comm_group top) - 1).
Proof.
  split; [|split].
  - intros Hc buffer received. eexists. split; [by apply ext_update_active|].
    destruct s; simpl in *. done.
  - intros Hf Hc. eexists. split; [by apply client_update_ok|]. by destruct w.
  - intros Hf. do 3 eexists. split; [by apply client_init_ok|].
    simpl. split; [done|]. split; [done|]. simpl. lia.
Qed.

(** C6.  The world-size endpoint answers
    [tensor_parallel_size * data_parallel_size].  The client's
    [init_communicator] takes that answer plus one as the world size and
    the answer itself, the world size minus one, as its rank, and joins
    the group with them.  Once the shards have handled the call fanned
    out to them, every tensor-parallel worker of every shard has joined a
    group of that world size and recorded the world size minus one as
    [client_rank], which is the client's rank. *)
Theorem client_rank_agrees (w : Client.world) :
  Client.http_fault w = None →
  (∀ conn, conn ∈ Client.connections w → fresh conn) →
  let script_args := Client.script_args w in
  let vllm_world_size :=
    Server.tensor_parallel_size script_args * Server.data_parallel_size script_args in
  let world_size := vllm_world_size + 1 in
  Server.get_world_size script_args = vllm_world_size
  ∧ ∃ w1 log pg,
      Client.init_communicator w = (Ok tt, w1, log)
      ∧ Client.rank (Client.client w1) = Some (world_size - 1)
      ∧ Client.pynccl_comm (Client.client w1) = Some (Communicator pg "cuda:0")
      ∧ pg_world_size pg = world_size
      ∧ pg_rank pg = world_size - 1
      ∧ length (Client.connections (Client.shards_run w1)) = length (Client.connections w)
      ∧ ∀ conn s,
          conn ∈ Client.connections (Client.shards_run w1) →
          s ∈ tp_workers (engine conn) →
          status conn = Running
          ∧ Ext.client_rank s = Some (world_size - 1)
          ∧ Ext.client_rank s = Client.rank (Client.client w1)
          ∧ ∃ c, Ext.pynccl_comm s = Some c ∧ pg_world_size (comm_group c) = world_size.
Proof.
  intros Hf Hfresh script_args vws ws. split; [done|].
  do 3 eexists. split; [by apply client_init_ok|].
  simpl. fold script_args. change (Server.get_world_size script_args) with vws.
  split; [f_equal; lia|]. split; [done|]. split; [done|]. split; [simpl; lia|].
  split; [unfold Server.fan_out; by rewrite !length_fmap|].
  intros conn s Hconn Hs.
  unfold Server.fan_out in Hconn. rewrite <- list_fmap_compose in Hconn.
  apply list_elem_of_fmap in Hconn as (conn0 & -> & Hconn0).
  destruct (Hfresh conn0 Hconn0) as (Hst & Hin & Hnone).
  simpl in Hs |- *.
  set (host := "0.0.0.0") in *. set (port := Client.group_port (Client.client w)) in *.
  pose proof (run_fire_and_forget_ok conn0 (RpcInitCommunicator host port (vws + 1))
             (λ s, Ext.State (Ext.device s) (Ext.world_rank s) (Ext.incoming s)
                (Some (Communicator (ProcessGroup host port (Ext.world_rank s) (vws + 1))
                         (Ext.device s)))
                (Some (vws + 1 - 1)) (Ext.model s))
             (λ s, [EvCreateGroup (ProcessGroup host port (Ext.world_rank s) (vws + 1))])
             Hst Hin) as Hrun.
  simpl in Hrun. rewrite Hrun in Hs |- *.
  - simpl in Hs. apply list_elem_of_fmap in Hs as (s0 & -> & Hs0). simpl.
    split; [done|]. split; [done|]. split; [f_equal; lia|]. by eexists.
  - intros s0 Hs0. by apply ext_init_fresh, Hnone.
  - intros s0 Hs0. by apply ext_init_fresh, Hnone.
Qed.
End weight_sync_protocol.

(** ** Calls that wait for every shard *)

Section call_facts.
Import Worker Spec.

Lemma answered_idle c conn : idle (answered c conn).
Proof. done. Qed.

Lemma recv_reset_prefix_cache (conn : worker) :
  idle conn →
  let c := Invoke call CallResetPrefixCache in
  recv (send c conn) = (Some (MsgBool (cache_reset_ok (engine conn))), answered c conn).
Proof.
  destruct conn as [l inb outb hd lg st ex]. intros (Hst & Hin & Hout).
  simpl in *. subst. unfold recv, run, send, answered. simpl.
  unfold set_outbox, set_inbox, ran, received. simpl. by rewrite app_nil_r.
Qed.

Lemma recv_generate (conn : worker) prompts sp :
  idle conn →
  let c := Invoke call (CallGenerate prompts sp) in
  recv (send c conn)
  = (Some (MsgOutputs ((λ p, complete (engine conn) p sp) <$> prompts)), answered c conn).
Proof.
  destruct conn as [l inb outb hd lg st ex]. intros (Hst & Hin & Hout).
  simpl in *. subst. unfold recv, run, send, answered. simpl.
  unfold set_outbox, set_inbox, ran, received. simpl. by rewrite app_nil_r.
Qed.

Lemma recv_each_reset_prefix_cache (connections : list worker) :
  (∀ conn, conn ∈ connections → idle conn) →
  let c := Invoke call CallResetPrefixCache in
  Server.recv_each (λ _, true) (send c <$> connections)
  = (Ok ((λ conn, MsgBool (cache_reset_ok (engine conn))) <$> connections),
     answered c <$> connections).
Proof.
  induction connections as [|conn connections IH]; intros Hidle c; [done|].
  assert (Htl : ∀ conn', conn' ∈ connections → idle conn')
    by (intros conn' Hin; by apply Hidle, list_elem_of_further).
  specialize (IH Htl). rewrite fmap_cons. cbn [Server.recv_each].
  rewrite recv_reset_prefix_cache by (apply Hidle, list_elem_of_here).
  subst c. cbv zeta in IH. by rewrite IH.
Qed.

Lemma forallb_reset_results (connections : list worker) :
  forallb Server.msg_truthy ((λ conn, MsgBool (cache_reset_ok (engine conn))) <$> connections)
  = forallb (λ conn, cache_reset_ok (engine conn)) connections.
Proof.
  induction connections as [|conn connections IH]; [done|].
  rewrite fmap_cons. cbn [forallb Server.msg_truthy]. by rewrite IH.
Qed.

Lemma forallb_false_iff {A} (f : A → bool) (l : list A) :
  forallb f l = false ↔ ∃ x, x ∈ l ∧ f x = false.
Proof.
  induction l as [|a l IH]; simpl.
  - split; [done|]. by intros (x & Hx%elem_of_nil & _).
  - destruct (f a) eqn:Ha; simpl.
    + rewrite IH. split.
      * intros (x & Hx & Hf). exists x. split; [by apply list_elem_of_further|done].
      * intros (x & Hx & Hf). apply elem_of_cons in Hx as [->|Hx]; [congruence|].
        by exists x.
    + split; [|done]. intros _. exists a. split; [apply list_elem_of_here|done].
Qed.

(** C7.  On a fleet of idle connections [reset_prefix_cache] succeeds;
    every shard has then received exactly one more command, the [call]
    of [reset_prefix_cache], and its reply has been taken; the status in
    the message is the conjunction of the shards' results: it is [True]
    exactly when every shard reported success, and [False] as soon as
    one shard reported failure. *)
Theorem reset_prefix_cache_reports_conjunction (connections : list worker) :
  (∀ conn, conn ∈ connections → idle conn) →
  let all_ok := forallb (λ conn, cache_reset_ok (engine conn)) connections in
  Server.reset_prefix_cache connections
  = (Ok ("Reset status: " +:+ Server.str_of_bool all_ok),
     answered (Invoke call CallResetPrefixCache) <$> connections)
  ∧ (all_ok = true ↔ ∀ conn, conn ∈ connections → cache_reset_ok (engine conn) = true)
  ∧ (all_ok = false ↔ ∃ conn, conn ∈ connections ∧ cache_reset_ok (engine conn) = false).
Proof.
  intros Hidle all_ok. split; [|split].
  - unfold Server.reset_prefix_cache.
    rewrite recv_each_reset_prefix_cache by done.
    by rewrite forallb_reset_results.
  - unfold all_ok. rewrite forallb_forall. split.
    + intros H conn Hin. by apply H, list_elem_of_In.
    + intros H conn Hin. by apply H, list_elem_of_In.
  - apply forallb_false_iff.
Qed.
End call_facts.

(** ** Distribution of a generate request and aggregation of the replies *)

Section generate_facts.
Import Worker Spec.
Context (cmpl : string → SamplingParams → RequestOutput).

Lemma recv_each_generate sp (connections : list worker) (chunks : list (list string)) :
  (∀ conn, conn ∈ connections → idle conn ∧ complete (engine conn) = cmpl) →
  length connections = length chunks →
  Server.recv_each Server.conn_truthy (Server.send_chunks sp connections chunks)
  = (Ok ((λ ch, MsgOutputs ((λ p, cmpl p sp) <$> Server.or_placeholder ch)) <$> chunks),
     zip_with (λ conn ch, answered (Invoke call (CallGenerate (Server.or_placeholder ch) sp)) conn)
       connections chunks).
Proof.
  revert chunks. induction connections as [|conn connections IH];
    intros [|ch chunks] Hall Hlen; try done.
  destruct (Hall conn (list_elem_of_here _ _)) as [Hidle Hc].
  cbn [Server.send_chunks Server.recv_each Server.conn_truthy].
  rewrite recv_generate by done. rewrite Hc.
  rewrite IH; [done| |by injection Hlen].
  intros conn' Hin. by apply Hall, list_elem_of_further.
Qed.

Lemma chain_from_iterable_outputs (F : string → RequestOutput)
    (g : list string → list string) (chunks : list (list string)) :
  Server.chain_from_iterable ((λ ch, MsgOutputs (F <$> g ch)) <$> chunks)
  = Ok (Some <$> (F <$> concat (g <$> chunks))).
Proof.
  induction chunks as [|ch chunks IH]; [done|].
  rewrite fmap_cons. cbn [Server.chain_from_iterable Server.iter_msg]. rewrite IH.
  simpl. by rewrite !fmap_app.
Qed.

Lemma completion_ids_outputs (outs : list RequestOutput) :
  Server.completion_ids (Some <$> outs) = Ok (concat ((λ r, token_ids <$> outputs r) <$> outs)).
Proof.
  induction outs as [|r outs IH]; [done|].
  rewrite fmap_cons. cbn [Server.completion_ids]. by rewrite IH.
Qed.

(** What the endpoint answers on an idle fleet of replicas: the
    completions of the prompts of every chunk, chunk after chunk, where
    an empty chunk stands as the placeholder prompt. *)
Lemma generate_answer script_args request (connections : list worker) :
  1 ≤ Server.data_parallel_size script_args →
  length connections = Z.to_nat (Server.data_parallel_size script_args) →
  (∀ conn, conn ∈ connections → idle conn ∧ complete (engine conn) = cmpl) →
  ∃ chunks,
    Chunk.chunk_list (Server.prompts request) (Server.data_parallel_size script_args) = Ok chunks
    ∧ (Server.generate script_args request connections).1
      = Ok (answer_for cmpl (Server.sampling_params request)
              (concat (Server.or_placeholder <$> chunks))).
Proof.
  intros Hdp Hlen Hall.
  pose proof (chunk_list_unfold (Server.prompts request)
                (Server.data_parallel_size script_args) ltac:(lia)) as Hchunks.
  pose proof (chunk_list_length _ _ _ Hdp Hchunks) as Hn.
  eexists. split; [exact Hchunks|].
  unfold Server.generate. rewrite Hchunks.
  rewrite recv_each_generate by (done || lia).
  rewrite chain_from_iterable_outputs, completion_ids_outputs. simpl.
  unfold answer_for, ids_of. by rewrite <- list_fmap_compose.
Qed.

(** With at least as many prompts as shards no chunk is empty, and the
    answer holds the completions of the prompts in the order of the
    request, and nothing else. *)
Lemma generate_preserves_order script_args request (connections : list worker) :
  1 ≤ Server.data_parallel_size script_args →
  Server.data_parallel_size script_args ≤ Z.of_nat (length (Server.prompts request)) →
  length connections = Z.to_nat (Server.data_parallel_size script_args) →
  (∀ conn, conn ∈ connections → idle conn ∧ complete (engine conn) = cmpl) →
  (Server.generate script_args request connections).1
  = Ok (answer_for cmpl (Server.sampling_params request) (Server.prompts request)).
Proof.
  intros Hdp Hle Hlen Hall.
  destruct (generate_answer script_args request connections Hdp Hlen Hall)
    as (chunks & Hchunks & ->).
  pose proof (chunk_list_concat _ _ _ Hdp Hchunks) as Hcat.
  do 2 f_equal. rewrite <- Hcat. f_equal.
  apply list_eq. intros i. rewrite list_lookup_fmap.
  destruct (chunks !! i) as [ch|] eqn:Hi; [|done]. simpl. f_equal.
  destruct (chunk_lookup _ _ i _ ch Hdp Hchunks Hi) as (_ & _ & Hl).
  assert (1 ≤ Z.of_nat (length (Server.prompts request))
              `div` Server.data_parallel_size script_args).
  { apply Z.div_le_lower_bound; lia. }
  destruct ch; [|done]. simpl in Hl. case_decide; lia.
Qed.

Lemma concat_or_placeholder_short (ps : list string) (k : nat) :
  concat (Server.or_placeholder <$> (((λ x, [x]) <$> ps) ++ replicate k []))
  = ps ++ replicate k "<placeholder>".
Proof.
  rewrite fmap_app, concat_app. f_equal.
  - induction ps as [|p ps IH]; [done|].
    rewrite !fmap_cons. cbn [concat Server.or_placeholder app]. by rewrite IH.
  - induction k as [|k IH]; [done|].
    cbn [replicate]. rewrite fmap_cons. cbn [concat Server.or_placeholder app].
    by rewrite IH.
Qed.

(** C2, where the code departs from it.  With fewer prompts than shards
    the answer of the endpoint holds, after the completions of the prompts
    of the request, the completions of one placeholder prompt for every
    shard that was left without a prompt: it is not the answer that holds
    the completions of the request's prompts and nothing else. *)
Theorem generate_returns_placeholder_completions script_args request
    (connections : list worker) :
  let dp := Server.data_parallel_size script_args in
  let ps := Server.prompts request in
  Z.of_nat (length ps) < dp →
  length connections = Z.to_nat dp →
  (∀ conn, conn ∈ connections → idle conn ∧ complete (engine conn) = cmpl) →
  (Server.generate script_args request connections).1
  = Ok (answer_for cmpl (Server.sampling_params request)
          (ps ++ replicate (Z.to_nat dp - length ps) "<placeholder>")).
Proof.
  intros dp ps Hlt Hlen Hall.
  destruct (generate_answer script_args request connections ltac:(fold dp; lia) Hlen Hall)
    as (chunks & Hchunks & ->).
  fold dp ps in Hchunks. rewrite chunk_list_short in Hchunks by done.
  injection Hchunks as <-. by rewrite concat_or_placeholder_short.
Qed.
End generate_facts.

(** ** Shutdown of the worker pool *)

Section shutdown_facts.
Import Worker Spec.

Lemma join_wait_bounds elapsed (p : worker) : 0 ≤ join_wait elapsed p ≤ 10000.
Proof.
  unfold join_wait, ends_within. destruct (Server.is_alive p); [|lia].
  destruct (exits_in p) as [d|]; [|lia]. case_bool_decide; lia.
Qed.

(** Each join begins at most ten seconds after the one before it. *)
Lemma join_starts_bounds (processes : list worker) elapsed (i : nat) e :
  join_starts elapsed processes !! i = Some e →
  elapsed ≤ e ≤ elapsed + 10000 * Z.of_nat i.
Proof.
  revert elapsed i. induction processes as [|p processes IH]; intros elapsed i Hi; [done|].
  destruct i as [|i]; simpl in Hi.
  - injection Hi as <-. lia.
  - apply IH in Hi. pose proof (join_wait_bounds elapsed p). lia.
Qed.

Lemma join_starts_length (processes : list worker) elapsed :
  length (join_starts elapsed processes) = length processes.
Proof.
  revert elapsed. induction processes as [|p processes IH]; intros elapsed; [done|].
  simpl. by rewrite IH.
Qed.

(** One process of the loop: joined with the timeout, and terminated
    when still alive. *)
Lemma shutdown_one pid elapsed (p : worker) :
  ∃ p',
    shut_down elapsed p p'
    ∧ ∀ processes,
        Server.lifespan_shutdown pid elapsed (p :: processes)
        = (p' :: (Server.lifespan_shutdown (S pid) (elapsed + join_wait elapsed p) processes).1,
           shutdown_log pid elapsed p
           ++ (Server.lifespan_shutdown (S pid) (elapsed + join_wait elapsed p) processes).2).
Proof.
  destruct p as [l inb outb hd lg st ex].
  destruct st; [destruct ex as [d|]; [destruct (decide (d ≤ elapsed + 10000))|]|..].
  - exists (Mk l inb outb hd lg Exited (Some d)). split.
    + unfold shut_down, ends_within. simpl. rewrite bool_decide_eq_true_2 by done.
      by repeat split.
    + intros processes. cbn [Server.lifespan_shutdown].
      unfold Server.join_timeout, join_wait, shutdown_log, ends_within. simpl.
      rewrite decide_True, bool_decide_eq_true_2 by done. simpl.
      replace (elapsed + 0 `max` (d - elapsed)) with (elapsed `max` d) by lia.
      by destruct (Server.lifespan_shutdown (S pid) (elapsed `max` d) processes).
  - exists (Mk l inb outb hd lg Terminated (Some d)). split.
    + unfold shut_down, ends_within. simpl. rewrite bool_decide_eq_false_2 by done.
      by repeat split.
    + intros processes. cbn [Server.lifespan_shutdown].
      unfold Server.join_timeout, join_wait, shutdown_log, ends_within. simpl.
      rewrite decide_False, bool_decide_eq_false_2 by done. simpl.
      by destruct (Server.lifespan_shutdown (S pid) (elapsed + 10000) processes).
  - exists (Mk l inb outb hd lg Terminated None). split.
    + unfold shut_down, ends_within. simpl. by repeat split.
    + intros processes. cbn [Server.lifespan_shutdown].
      unfold Server.join_timeout, join_wait, shutdown_log, ends_within. simpl.
      by destruct (Server.lifespan_shutdown (S pid) (elapsed + 10000) processes).
  - exists (Mk l inb outb hd lg Exited ex). split; [by repeat split|].
    intros processes. cbn [Server.lifespan_shutdown].
    unfold Server.join_timeout, join_wait, shutdown_log. simpl. rewrite Z.add_0_r.
    by destruct (Server.lifespan_shutdown (S pid) elapsed processes).
  - exists (Mk l inb outb hd lg (Crashed e) ex). split; [by repeat split|].
    intros processes. cbn [Server.lifespan_shutdown].
    unfold Server.join_timeout, join_wait, shutdown_log. simpl. rewrite Z.add_0_r.
    by destruct (Server.lifespan_shutdown (S pid) elapsed processes).
  - exists (Mk l inb outb hd lg Terminated ex). split; [by repeat split|].
    intros processes. cbn [Server.lifespan_shutdown].
    unfold Server.join_timeout, join_wait, shutdown_log. simpl. rewrite Z.add_0_r.
    by destruct (Server.lifespan_shutdown (S pid) elapsed processes).
Qed.

Lemma lifespan_shutdown_spec (processes : list worker) pid elapsed :
  ∃ processes',
    Forall3 (λ e p p', shut_down e p p') (join_starts elapsed processes) processes processes'
    ∧ Server.lifespan_shutdown pid elapsed processes
      = (processes',
         concat (imap (λ i ep, shutdown_log (pid + i) ep.1 ep.2)
                   (zip (join_starts elapsed processes) processes))).
Proof.
  revert pid elapsed. induction processes as [|p processes IH]; intros pid elapsed.
  - exists []. split; [constructor|done].
  - destruct (shutdown_one pid elapsed p) as (p' & Hp & Heq).
    destruct (IH (S pid) (elapsed + join_wait elapsed p)) as (processes' & Hall & Hrest).
    exists (p' :: processes'). split; [by constructor|].
    rewrite Heq, Hrest. simpl. rewrite Nat.add_0_r. do 4 f_equal.
    apply imap_ext. intros i [e q] _. simpl. f_equal. lia.
Qed.

(** C8, as the code has it.  The shutdown sends nothing to any worker:
    the pipes and what each worker has received are as before, and only
    the status of a process changes.  It goes through the processes in
    order; the join of a process begins when the join before it has
    returned, at most ten seconds later.  A process that has ended is
    joined and keeps its status.  A running process that ends of its own
    accord within ten seconds of the beginning of its join is joined and
    has exited.  Every other running process, one that never ends or one
    that would end later than that, is joined for the ten seconds,
    terminated and joined again.  No process is alive at the end.  The
    worker loop does leave on a [shutdown] command, had one been sent. *)
Theorem lifespan_shutdown_joins_then_terminates (processes : list worker) :
  ∃ processes',
    Server.lifespan_shutdown 0 0 processes
    = (processes',
       concat (imap (λ i ep, shutdown_log i ep.1 ep.2)
                 (zip (join_starts 0 processes) processes)))
    ∧ Forall3 (λ e p p', shut_down e p p') (join_starts 0 processes) processes processes'
    ∧ (∀ (i : nat) e, join_starts 0 processes !! i = Some e →
         0 ≤ e ≤ 10000 * Z.of_nat i)
    ∧ ∀ w, status (llm_worker_step (Cmd Shutdown) w) = Exited
           ∧ outbox (llm_worker_step (Cmd Shutdown) w) = outbox w.
Proof.
  destruct (lifespan_shutdown_spec processes 0%nat 0) as (processes' & Hall & Heq).
  exists processes'. split; [done|]. split; [done|]. split; [|by intros []].
  intros i e Hi. apply join_starts_bounds in Hi. lia.
Qed.
End shutdown_facts.

(** C8, as stated, fails: after the shutdown of two idle shards no
    [shutdown] command has been sent to them. *)
Lemma lifespan_shutdown_sends_no_command :
  ¬ Spec.shutdown_requested
      (Server.lifespan_shutdown 0 0 [Sample.shard true; Sample.shard true]).1.
Proof.
  intros H. specialize (H _ (list_elem_of_here _ _)). simpl in H.
  by apply elem_of_nil in H.
Qed.

(** The same shutdown in full: both shards are joined for ten seconds,
    terminated and joined again. *)
Example lifespan_shutdown_two_idle_shards :
  (Server.lifespan_shutdown 0 0 [Sample.shard true; Sample.shard true]).2
  = [EvJoin 0 (Some 10000); EvTerminate 0; EvJoin 0 None;
     EvJoin 1 (Some 10000); EvTerminate 1; EvJoin 1 None].
Proof. reflexivity. Qed.

(** A shard that ends by itself after four seconds is joined and not
    terminated; the one after it has had those four seconds too. *)
Example lifespan_shutdown_exiting_shards :
  (Server.lifespan_shutdown 0 0 [Sample.shard_exiting 4000; Sample.shard_exiting 13000]).2
  = [EvJoin 0 (Some 10000); EvJoin 1 (Some 10000)].
Proof. reflexivity. Qed.

(** A shard that would need an hour is not waited for: its join runs out
    after ten seconds and the process is terminated. *)
Example lifespan_shutdown_slow_shard :
  Server.lifespan_shutdown 0 0 [Sample.shard_exiting 3600000]
  = ([Worker.set_status Worker.Terminated (Sample.shard_exiting 3600000)],
     [EvJoin 0 (Some 10000); EvTerminate 0; EvJoin 0 None]).
Proof. reflexivity. Qed.

(** ** The health check *)

Section check_server_facts.
Import Client.
Context (net : network) (total_timeout retry_interval : Z).

Local Notation "'GET'" := (EvHttpGet "/health/").
Local Notation "'unreachable'" := (ConnectionError "Cannot reach vLLM server").

(** One pass through the loop body, case by case. *)
Lemma body_returns start_time clk k :
  answer net k = Response 200 →
  check_server_body net total_timeout retry_interval start_time (Hc clk k)
  = (Ok (Some tt), Hc (clk + latency net k) (S k), [GET]).
Proof. intros H. unfold check_server_body, requests_get. cbn. by rewrite H. Qed.

Lemma body_raises start_time clk k :
  answer net k = RequestException →
  total_timeout ≤ clk + latency net k - start_time →
  check_server_body net total_timeout retry_interval start_time (Hc clk k)
  = (Raise unreachable, Hc (clk + latency net k) (S k), [GET]).
Proof.
  intros H Ht. unfold check_server_body, requests_get. cbn. rewrite H. cbn.
  by rewrite decide_True by lia.
Qed.

Lemma body_retries_after_exception start_time clk k :
  answer net k = RequestException →
  clk + latency net k - start_time < total_timeout →
  0 ≤ retry_interval →
  check_server_body net total_timeout retry_interval start_time (Hc clk k)
  = (Ok None, Hc (clk + latency net k + retry_interval) (S k), [GET; EvSleep retry_interval]).
Proof.
  intros H Ht Hr. unfold check_server_body, requests_get, time_sleep. cbn. rewrite H. cbn.
  rewrite decide_False by lia. rewrite decide_False by lia. reflexivity.
Qed.

Lemma body_retries_after_status start_time clk k code :
  answer net k = Response code → code ≠ 200 →
  0 ≤ retry_interval →
  check_server_body net total_timeout retry_interval start_time (Hc clk k)
  = (Ok None, Hc (clk + latency net k + retry_interval) (S k), [GET; EvSleep retry_interval]).
Proof.
  intros H Hc Hr. unfold check_server_body, requests_get, time_sleep. cbn. rewrite H. cbn.
  rewrite decide_False by done. rewrite decide_False by lia. reflexivity.
Qed.

(** The body raises [ConnectionError] only on a request exception, and
    only with the timeout elapsed. *)
Lemma body_connection_error start_time s s1 log msg :
  check_server_body net total_timeout retry_interval start_time s
  = (Raise (ConnectionError msg), s1, log) →
  answer net (attempt s) = RequestException
  ∧ attempt s1 = S (attempt s)
  ∧ total_timeout ≤ clock s1 - start_time.
Proof.
  destruct s as [clk k]. unfold check_server_body, requests_get, time_sleep. cbn.
  destruct (answer net k) as [|code]; cbn.
  - destruct (decide (clk + latency net k - start_time >= total_timeout)); cbn.
    + intros [= <- <- <-]. cbn. split; [done|]. split; [done|]. lia.
    + destruct (decide (retry_interval < 0)); cbn; discriminate.
  - destruct (decide (code = 200)); cbn; [discriminate|].
    destruct (decide (retry_interval < 0)); cbn; discriminate.
Qed.

(** Unfolding the loop at its first pass. *)
Lemma loop_S start_time fuel s :
  check_server_loop net total_timeout retry_interval start_time (S fuel) s
  = match check_server_body net total_timeout retry_interval start_time s with
    | (Ok (Some tt), s', log) => (Ok (Some tt), s', log)
    | (Ok None, s', log) =>
        let '(r, s'', log') :=
          check_server_loop net total_timeout retry_interval start_time fuel s' in
        (r, s'', log ++ log')
    | (Raise e, s', log) => (Raise e, s', log)
    | (Blocked, s', log) => (Blocked, s', log)
    end.
Proof.
  cbn [check_server_loop]. unfold mbind'.
  destruct (check_server_body _ _ _ _ s) as [[[[[]|]| |] s'] log]; try done.
  cbn. by rewrite app_nil_r.
Qed.

(** Unfolding the loop at its last pass: a loop still going round after
    [fuel] passes makes one more. *)
Lemma loop_snoc start_time fuel s s1 log :
  check_server_loop net total_timeout retry_interval start_time fuel s = (Ok None, s1, log) →
  check_server_loop net total_timeout retry_interval start_time (S fuel) s
  = let '(r, s2, log') :=
      check_server_body net total_timeout retry_interval start_time s1 in
    (r, s2, log ++ log').
Proof.
  revert s s1 log. induction fuel as [|fuel IH]; intros s s1 log.
  - intros H. cbv [check_server_loop ret] in H. injection H as <- <-.
    rewrite loop_S.
    destruct (check_server_body _ _ _ _ s) as [[[[[]|]| |] s'] log']; try done.
    cbv [check_server_loop ret]. by rewrite app_nil_r.
  - rewrite loop_S. rewrite (loop_S _ (S fuel)).
    destruct (check_server_body _ _ _ _ s) as [[[[[]|]| |] s'] log0]; try done.
    destruct (check_server_loop _ _ _ _ fuel s') as [[r s''] log'] eqn:Hloop.
    intros [= -> -> <-]. rewrite (IH _ _ _ Hloop).
    destruct (check_server_body _ _ _ _ s1) as [[r2 s2] log2]. by rewrite app_assoc.
Qed.

(** The loop raises [ConnectionError] only at a request exception met
    with the timeout elapsed. *)
Lemma loop_connection_error start_time fuel s s1 log msg :
  check_server_loop net total_timeout retry_interval start_time fuel s
  = (Raise (ConnectionError msg), s1, log) →
  ∃ k, attempt s1 = S k ∧ answer net k = RequestException
       ∧ total_timeout ≤ clock s1 - start_time.
Proof.
  revert s log. induction fuel as [|fuel IH]; intros s log; [done|].
  rewrite loop_S.
  destruct (check_server_body _ _ _ _ s) as [[[[[]|]| |] s'] log0] eqn:Hbody; try done.
  - destruct (check_server_loop _ _ _ _ fuel s') as [[r s''] log'] eqn:Hloop.
    intros [= -> -> <-]. by eapply IH.
  - intros [= -> -> ->]. apply body_connection_error in Hbody as (? & ? & ?).
    by exists (attempt s).
Qed.
Lemma check_server_eq fuel s :
  check_server net total_timeout retry_interval fuel s
  = check_server_loop net total_timeout retry_interval (clock s) fuel s.
Proof.
  unfold check_server, mbind', time_time, get, ret. simpl.
  by destruct (check_server_loop _ _ _ _ fuel s) as [[r s'] log].
Qed.

(** Against a server that answers every request with a status other
    than 200 the loop is still going round after any number of passes. *)
Lemma loop_unhealthy start_time fuel s :
  0 ≤ retry_interval →
  (∀ k, ∃ code, answer net k = Response code ∧ code ≠ 200) →
  ∃ clk,
    check_server_loop net total_timeout retry_interval start_time fuel s
    = (Ok None, Hc clk (attempt s + fuel),
       concat (replicate fuel [GET; EvSleep retry_interval])).
Proof.
  intros Hr Hall. revert s. induction fuel as [|fuel IH]; intros [clk k].
  - exists clk. cbn. by rewrite Nat.add_0_r.
  - destruct (Hall k) as (code & Hk & Hcode).
    destruct (IH (Hc (clk + latency net k + retry_interval) (S k))) as (clk' & Hloop).
    exists clk'. rewrite loop_S, (body_retries_after_status _ _ _ code) by done.
    rewrite Hloop. cbn. do 2 f_equal. f_equal. lia.
Qed.

(** Against a server that cannot be reached the loop raises, at the
    first request that fails with the timeout elapsed, after sleeping the
    retry interval behind every earlier request. *)
Lemma loop_unreachable (m : nat) start_time s :
  0 < retry_interval →
  (∀ k, 0 ≤ latency net k) →
  (∀ k, answer net k = RequestException) →
  total_timeout - (clock s - start_time) ≤ Z.of_nat m * retry_interval →
  ∃ (n : nat) clk,
    check_server_loop net total_timeout retry_interval start_time (S n) s
    = (Raise unreachable, Hc clk (attempt s + S n),
       concat (replicate n [GET; EvSleep retry_interval]) ++ [GET])
    ∧ total_timeout ≤ clk - start_time.
Proof.
  intros Hr Hlat Hall. revert s. induction m as [|m IH]; intros [clk k] Hm; simpl in Hm.
  - exists 0%nat, (clk + latency net k). specialize (Hlat k).
    rewrite loop_S, body_raises by (done || lia). cbn.
    split; [by rewrite Nat.add_1_r|lia].
  - specialize (Hlat k).
    destruct (decide (total_timeout ≤ clk + latency net k - start_time)) as [Ht|Ht].
    + exists 0%nat, (clk + latency net k).
      rewrite loop_S, body_raises by (done || lia). cbn.
      split; [by rewrite Nat.add_1_r|lia].
    + destruct (IH (Hc (clk + latency net k + retry_interval) (S k)))
        as (n & clk' & Hloop & Hclk); [simpl; lia|].
      exists (S n), clk'. split; [|done].
      rewrite loop_S, body_retries_after_exception by (done || lia).
      rewrite Hloop. cbn. do 2 f_equal. f_equal. lia.
Qed.

(** C9.  Whatever the total timeout: when the loop reaches a request
    that is answered 200, the check returns there without error; a
    [ConnectionError] is raised only at a request that failed, and only
    with the total timeout or more elapsed since the check began; and
    against a server that cannot be reached, with a positive retry
    interval, the check does raise [ConnectionError], having slept the
    retry interval after every request before the one at which the
    timeout has elapsed. *)
Theorem check_server_succeeds_or_times_out :
  (∀ fuel s0 s1 log,
     check_server net total_timeout retry_interval fuel s0 = (Ok None, s1, log) →
     answer net (attempt s1) = Response 200 →
     check_server net total_timeout retry_interval (S fuel) s0
     = (Ok (Some tt), Hc (clock s1 + latency net (attempt s1)) (S (attempt s1)),
        log ++ [GET]))
  ∧ (∀ fuel s0 s1 log msg,
       check_server net total_timeout retry_interval fuel s0
       = (Raise (ConnectionError msg), s1, log) →
       total_timeout ≤ clock s1 - clock s0
       ∧ ∃ k, attempt s1 = S k ∧ answer net k = RequestException)
  ∧ (0 < retry_interval →
     (∀ k, 0 ≤ latency net k) →
     (∀ k, answer net k = RequestException) →
     ∀ s0, ∃ (n : nat) clk,
       check_server net total_timeout retry_interval (S n) s0
       = (Raise unreachable, Hc clk (attempt s0 + S n),
          concat (replicate n [GET; EvSleep retry_interval]) ++ [GET])
       ∧ total_timeout ≤ clk - clock s0).
Proof.
  split; [|split].
  - intros fuel s0 s1 log Hloop H200. rewrite check_server_eq in Hloop |- *.
    rewrite (loop_snoc _ _ _ _ _ Hloop). destruct s1 as [clk k]. simpl in H200.
    by rewrite body_returns.
  - intros fuel s0 s1 log msg Hraise. rewrite check_server_eq in Hraise.
    apply loop_connection_error in Hraise as (k & ? & ? & ?). split; [done|]. by exists k.
  - intros Hr Hlat Hall s0.
    destruct (loop_unreachable (Z.to_nat (Z.max total_timeout 0)) (clock s0) s0)
      as (n & clk & Hloop & Hclk); [done..|nia|].
    exists n, clk. by rewrite check_server_eq.
Qed.

(** C10.  The timeout bounds connection failures only.  A
    [ConnectionError] is raised only at a request that threw, with the
    total timeout or more elapsed.  Against a server that answers every
    request with a status other than 200 the check, whatever the total
    timeout, neither returns nor raises: after any number of passes it
    is still in the loop, having made that many requests and slept the
    retry interval after each. *)
Theorem check_server_retries_unhealthy_forever :
  (∀ fuel s0 s1 log msg,
     check_server net total_timeout retry_interval fuel s0
     = (Raise (ConnectionError msg), s1, log) →
     total_timeout ≤ clock s1 - clock s0
     ∧ ∃ k, attempt s1 = S k ∧ answer net k = RequestException)
  ∧ (0 ≤ retry_interval →
     (∀ k, ∃ code, answer net k = Response code ∧ code ≠ 200) →
     ∀ fuel s0, ∃ clk,
       check_server net total_timeout retry_interval fuel s0
       = (Ok None, Hc clk (attempt s0 + fuel),
          concat (replicate fuel [GET; EvSleep retry_interval]))).
Proof.
  split.
  - intros fuel s0 s1 log msg Hraise. rewrite check_server_eq in Hraise.
    apply loop_connection_error in Hraise as (k & ? & ? & ?). split; [done|]. by exists k.
  - intros Hr Hall fuel s0. rewrite check_server_eq. by apply loop_unhealthy.
Qed.
End check_server_facts.

(** ** The theorems at the sample data *)

(** Closing a worker that is rank 0 of a group of two, and closing it
    again. *)
Lemma close_communicator_idempotent_witness :
  ∃ s1,
    Ext.close_communicator Sample.ext_active
    = (Ok tt, s1, [EvRelease (Communicator (ProcessGroup "0.0.0.0" 51216 0 2) "cuda:0")])
    ∧ Ext.pynccl_comm s1 = None ∧ Ext.client_rank s1 = None
    ∧ Ext.close_communicator s1 = (Ok tt, s1, []).
Proof.
  destruct (close_communicator_idempotent Sample.ext_active)
    as (s1 & log & Hclose & Hcomm & _ & Hactive & _ & Hagain).
  destruct (Hactive _ eq_refl) as [-> Hrank].
  exists s1. repeat split; assumption.
Defined.

(** An update of the parameter ["w"] on that worker, and on a client that
    is rank 1 of the group of two. *)
Lemma update_named_param_steps_witness :
  (∃ s1 log, Ext.update_named_param "w" "float32" [2; 1] Sample.ext_active = (Ok tt, s1, log)
             ∧ length log = 4%nat
             ∧ Ext.model s1 !! "w" = Some (Tensor "float32" [2; 1] [7; 7]))
  ∧ (∃ w1, Client.update_named_param "w" Sample.weights Sample.world_joined
           = (Ok tt, w1,
              [EvHttpPost "/update_named_param/";
               EvBroadcast (Communicator (ProcessGroup "0.0.0.0" 51216 1 2) "cuda:0")
                 Sample.weights (Some 1);
               EvBarrier (Communicator (ProcessGroup "0.0.0.0" 51216 1 2) "cuda:0")])).
Proof.
  destruct (update_named_param_steps Sample.ext_active
              (Communicator (ProcessGroup "0.0.0.0" 51216 0 2) "cuda:0")
              Sample.world_joined
              (Communicator (ProcessGroup "0.0.0.0" 51216 1 2) "cuda:0")
              "w" "float32" [2; 1] Sample.weights) as (Hshard & Hclient & _).
  split.
  - destruct (Hshard eq_refl) as (s1 & Hrun & Hmodel & _).
    exists s1. eexists. split; [exact Hrun|]. split; [reflexivity|].
    rewrite Hmodel. apply lookup_insert_eq.
  - destruct (Hclient eq_refl eq_refl) as (w1 & Hrun & _). by exists w1.
Defined.

Lemma sample_world_fresh conn : conn ∈ Client.connections Sample.world → Spec.fresh conn.
Proof.
  intros ->%list_elem_of_singleton. split; [reflexivity|]. split; [reflexivity|].
  by intros s ->%list_elem_of_singleton.
Defined.

(** One shard with one tensor-parallel worker: the world size is 2, and
    client and worker agree on rank 1. *)
Lemma client_rank_agrees_witness :
  ∃ w1 log,
    Client.init_communicator Sample.world = (Ok tt, w1, log)
    ∧ Client.rank (Client.client w1) = Some 1
    ∧ ∀ conn s, conn ∈ Client.connections (Client.shards_run w1) →
                s ∈ Worker.tp_workers (Worker.engine conn) →
                Ext.client_rank s = Some 1.
Proof.
  destruct (client_rank_agrees Sample.world eq_refl sample_world_fresh)
    as (_ & w1 & log & pg & Hinit & Hrank & _ & _ & _ & _ & Hshards).
  exists w1, log. split; [exact Hinit|]. split; [exact Hrank|].
  intros conn s Hconn Hs. by destruct (Hshards conn s Hconn Hs) as (_ & ? & _).
Defined.

Lemma sample_fleet_idle conn :
  conn ∈ [Sample.shard true; Sample.shard false] → Spec.idle conn.
Proof.
  intros [->| ->%list_elem_of_singleton]%elem_of_cons; by repeat split.
Defined.

(** Two shards, of which the second fails to reset its cache. *)
Lemma reset_prefix_cache_reports_conjunction_witness :
  (Server.reset_prefix_cache [Sample.shard true; Sample.shard false]).1
  = Ok "Reset status: False".
Proof.
  destruct (reset_prefix_cache_reports_conjunction
              [Sample.shard true; Sample.shard false] sample_fleet_idle) as (-> & _).
  reflexivity.
Defined.

(** A server up at the fourth request, with a timeout of ten seconds; a
    server that stays down, with a timeout of three seconds.  The retry
    interval is two seconds. *)
Lemma check_server_succeeds_or_times_out_witness :
  Client.check_server Sample.net_late 10000 2000 4 (Client.Hc 0 0)
  = (Ok (Some tt), Client.Hc 6020 4,
     [EvHttpGet "/health/"; EvSleep 2000; EvHttpGet "/health/"; EvSleep 2000;
      EvHttpGet "/health/"; EvSleep 2000; EvHttpGet "/health/"])
  ∧ ∃ (n : nat) clk log,
      Client.check_server Sample.net_down 3000 2000 (S n) (Client.Hc 0 0)
      = (Raise (ConnectionError "Cannot reach vLLM server"), Client.Hc clk (S n), log)
      ∧ 3000 ≤ clk - 0.
Proof.
  split.
  - destruct (check_server_succeeds_or_times_out Sample.net_late 10000 2000) as (Hok & _).
    exact (Hok 3%nat (Client.Hc 0 0) _ _ eq_refl eq_refl).
  - destruct (check_server_succeeds_or_times_out Sample.net_down 3000 2000) as (_ & _ & Hdown).
    destruct (Hdown ltac:(lia) ltac:(intros; simpl; lia) ltac:(reflexivity) (Client.Hc 0 0))
      as (n & clk & Hraise & Hclk).
    exists n, clk. eexists. split; [exact Hraise|exact Hclk].
Defined.

(** A server that answers 503, with the default timeout of zero: three
    passes, and the loop goes on. *)
Lemma check_server_retries_unhealthy_forever_witness :
  ∃ clk, Client.check_server Sample.net_unhealthy 0 2000 3 (Client.Hc 0 0)
         = (Ok None, Client.Hc clk 3,
            [EvHttpGet "/health/"; EvSleep 2000; EvHttpGet "/health/"; EvSleep 2000;
             EvHttpGet "/health/"; EvSleep 2000]).
Proof.
  destruct (check_server_retries_unhealthy_forever Sample.net_unhealthy 0 2000) as (_ & Hloop).
  assert (Hunhealthy : ∀ k : nat, ∃ code,
            Client.answer Sample.net_unhealthy k = Client.Response code ∧ code ≠ 200).
  { intros k. exists 503. split; [reflexivity|lia]. }
  destruct (Hloop ltac:(lia) Hunhealthy 3%nat (Client.Hc 0 0)) as (clk & Hrun).
  exists clk. exact Hrun.
Defined.

(** ** The generate endpoint at sample requests *)

(** Five prompts on two shards: the chunks have three and two prompts,
    and the completions come back in the order of the prompts. *)
Example generate_five_prompts_two_shards :
  let request := Sample.request ["a"; "bb"; "ccc"; "dddd"; "eeeee"] in
  Chunk.chunk_list (Server.prompts request) 2 = Ok [["a"; "bb"; "ccc"]; ["dddd"; "eeeee"]]
  ∧ (Server.generate (Sample.args 1 2) request [Sample.shard true; Sample.shard true]).1
    = Ok [[1]; [2]; [3]; [4]; [5]].
Proof. split; reflexivity. Qed.

Lemma sample_replicas_idle conn :
  conn ∈ [Sample.shard true; Sample.shard true] →
  Spec.idle conn ∧ Worker.complete (Worker.engine conn) = Sample.echo.
Proof.
  intros [->| ->%list_elem_of_singleton]%elem_of_cons; by repeat split.
Defined.

(** One prompt on two shards: the second chunk is empty, the second shard
    is sent the placeholder prompt, and its completion comes back in the
    answer behind the completion of the one prompt of the request.  The
    answer with the completions of the request's prompts and nothing else
    has one group only. *)
Lemma generate_returns_placeholder_completions_witness :
  let request := Sample.request ["a"] in
  let fleet := [Sample.shard true; Sample.shard true] in
  (Server.generate (Sample.args 1 2) request fleet).1 = Ok [[1]; [13]]
  ∧ Spec.answer_for Sample.echo (Server.sampling_params request) (Server.prompts request)
    = [[1]].
Proof.
  split; [|reflexivity].
  rewrite (generate_returns_placeholder_completions Sample.echo (Sample.args 1 2)
             (Sample.request ["a"]) [Sample.shard true; Sample.shard true]
             ltac:(simpl; lia) eq_refl sample_replicas_idle).
  reflexivity.
Defined.

(** * Part III: further facts *)

(** ** Empty chunks *)

Section chunk_more.
Import Chunk.
Context {A : Type}.
Implicit Types (lst : list A).

(** X1.  A split into [n >= 1] chunks has no empty chunk exactly when the
    list has at least [n] items. *)
Theorem chunk_list_no_empty_chunk lst (n : Z) chunks :
  1 ≤ n →
  chunk_list lst n = Ok chunks →
  (∀ c, c ∈ chunks → c ≠ []) ↔ n ≤ Z.of_nat (length lst).
Proof.
  intros Hn Hc. split.
  - intros Hne. destruct (decide (n ≤ Z.of_nat (length lst))) as [|Hlt]; [done|].
    rewrite chunk_list_short in Hc by lia. injection Hc as <-.
    exfalso. apply (Hne []); [|done].
    apply elem_of_app. right. apply elem_of_replicate. split; [done|lia].
  - intros Hle c [i Hi]%list_elem_of_lookup.
    destruct (chunk_lookup lst n i chunks c Hn Hc Hi) as (_ & _ & Hl).
    assert (1 ≤ Z.of_nat (length lst) `div` n) by (apply Z.div_le_lower_bound; lia).
    intros ->. simpl in Hl. case_decide; lia.
Qed.
End chunk_more.

(** ** The dtype name on its way from the client to the shards *)

Lemma has_dot_app (p q : string) :
  Server.has_dot (p +:+ q) = Server.has_dot p || Server.has_dot q.
Proof.
  induction p as [|c p IH]; [done|]. simpl. rewrite IH. by rewrite orb_assoc.
Qed.

Lemma after_last_dot_dotless (s : string) :
  Server.has_dot s = false → Server.after_last_dot s = s.
Proof.
  destruct s as [|c s]; [done|]. simpl. intros [Hc Hs]%orb_false_iff.
  by rewrite Hs, Hc.
Qed.

Lemma after_last_dot_has_no_dot (s : string) :
  Server.has_dot (Server.after_last_dot s) = false.
Proof.
  induction s as [|c s IH]; [done|]. simpl.
  destruct (Server.has_dot s) eqn:Hs; [done|].
  destruct (bool_decide (c = "."%char)) eqn:Hc; [done|]. simpl. by rewrite Hc, Hs.
Qed.

Lemma after_last_dot_suffix (p q : string) :
  Server.has_dot q = false → Server.after_last_dot (p +:+ "." +:+ q) = q.
Proof.
  intros Hq. induction p as [|c p IH].
  - change ("" +:+ "." +:+ q) with (String "." q). simpl. by rewrite Hq.
  - change (String c p +:+ "." +:+ q) with (String c (p +:+ "." +:+ q)).
    cbn [Server.after_last_dot]. rewrite has_dot_app. simpl.
    by rewrite orb_true_r.
Qed.

(** X2.  [split(".")[-1]] as the update endpoint applies it to the dtype:
    the result holds no dot; a name without a dot is kept; of a dotted
    name, what follows the last dot is kept.  So the dtype the client
    writes as ["torch." + name] reaches the shards as [name], when the
    name itself holds no dot. *)
Theorem dtype_name_round_trip (s p q : string) (weights : tensor) :
  Server.has_dot (Server.after_last_dot s) = false
  ∧ (Server.has_dot s = false → Server.after_last_dot s = s)
  ∧ (Server.has_dot q = false → Server.after_last_dot (p +:+ "." +:+ q) = q)
  ∧ (Server.has_dot (t_dtype weights) = false →
     Server.after_last_dot (Client.str_dtype weights) = t_dtype weights).
Proof.
  split; [apply after_last_dot_has_no_dot|]. split; [apply after_last_dot_dotless|].
  split; [apply after_last_dot_suffix|].
  intros Hd. unfold Client.str_dtype.
  change ("torch." +:+ t_dtype weights) with ("torch" +:+ "." +:+ t_dtype weights).
  by apply after_last_dot_suffix.
Qed.

(** ** The extension over sequences of calls *)

Section ext_more.
Import Worker Inv.
Implicit Types (s : Ext.state).

(** X3.  After [close_communicator] a worker can always join again:
    whatever the state, a close followed by [init_communicator] succeeds,
    and the worker then holds a communicator for the new group, with the
    last rank of that group as client rank and its model as it was. *)
Theorem close_then_init_succeeds s host port world_size :
  ∃ s1 log1 s2,
    Ext.close_communicator s = (Ok tt, s1, log1)
    ∧ Ext.init_communicator host port world_size s1
      = (Ok tt, s2, [EvCreateGroup (ProcessGroup host port (Ext.world_rank s) world_size)])
    ∧ Ext.pynccl_comm s2
      = Some (Communicator (ProcessGroup host port (Ext.world_rank s) world_size) (Ext.device s))
    ∧ Ext.client_rank s2 = Some (world_size - 1)
    ∧ Ext.model s2 = Ext.model s.
Proof.
  destruct s as [d wr inc [c|] cr m]; do 3 eexists;
    (split; [reflexivity|]); (split; [reflexivity|]); done.
Qed.

(** No method of the extension blocks. *)
Lemma rpc_method_not_blocked r s : (rpc_method r s).1.1 ≠ Blocked.
Proof.
  destruct r, s as [d wr inc [c|] cr m]; simpl; done.
Qed.

(** Every method keeps the two fields together, and broadcasts from the
    last rank only. *)
Lemma rpc_method_coherent r s :
  coherent s →
  coherent (rpc_method r s).1.2 ∧ Forall from_last_rank (rpc_method r s).2.
Proof.
  unfold coherent.
  destruct r, s as [d wr inc [c|] [cr|] m]; simpl; intros H; try done;
    repeat (split || constructor); simpl; try done; try lia.
  by destruct H as [-> _].
Qed.

Lemma run_each_coherent (m : M Ext.state unit) (ws : list Ext.state) :
  (∀ s, coherent s → coherent (m s).1.2 ∧ Forall from_last_rank (m s).2) →
  Forall coherent ws →
  Forall coherent (run_each m ws).1.2 ∧ Forall from_last_rank (run_each m ws).2.
Proof.
  intros Hm. induction 1 as [|s ws Hs Hws IH]; [by split; constructor|].
  simpl. destruct (Hm s Hs) as [Hs' Hlog]. destruct (m s) as [[r s'] log].
  destruct IH as [Hws' Hlog']. destruct (run_each m ws) as [[rs ws'] log']. simpl in *.
  split; [by constructor|]. by apply Forall_app.
Qed.

Lemma run_method_coherent mc (l : llm) :
  Forall coherent (tp_workers l) →
  Forall coherent (tp_workers (run_method mc l).1.2)
  ∧ Forall from_last_rank (run_method mc l).2.
Proof.
  intros Hl. destruct mc as [prompts sp|r|]; simpl; try (split; [done|constructor]).
  unfold collective_rpc.
  destruct (run_each_coherent (rpc_method r) (tp_workers l) (rpc_method_coherent r) Hl)
    as [Hws Hlog].
  destruct (run_each (rpc_method r) (tp_workers l)) as [[res ws] log]. done.
Qed.

Lemma llm_worker_step_coherent a (w : worker) :
  Forall coherent (tp_workers (engine w)) → Forall from_last_rank (wlog w) →
  Forall coherent (tp_workers (engine (llm_worker_step a w)))
  ∧ Forall from_last_rank (wlog (llm_worker_step a w)).
Proof.
  intros Hw Hlog. destruct a as [[ty mc|]|]; unfold llm_worker_step.
  - destruct (run_method_coherent mc (engine w) Hw) as [Hl' Hlog'].
    change (engine (received (Cmd (Invoke ty mc)) w)) with (engine w).
    destruct (run_method mc (engine w)) as [[[res| |] l'] log']; simpl in *;
      [destruct ty|..]; simpl; (split; [done|by apply Forall_app]).
  - done.
  - destruct (run_method_coherent (CallCollectiveRpc RpcCloseCommunicator) (engine w) Hw)
      as [Hl' Hlog'].
    change (engine (received KeyboardInterrupt w)) with (engine w).
    change (run_method (CallCollectiveRpc RpcCloseCommunicator) (engine w))
      with (collective_rpc RpcCloseCommunicator (engine w)) in *.
    destruct (collective_rpc RpcCloseCommunicator (engine w)) as [[[res| |] l'] log'];
      simpl in *; (split; [done|by apply Forall_app]).
Qed.

(** X4.  The communicator and the client rank of a worker stay together
    through everything a shard process does: when every tensor-parallel
    worker starts with neither, or with a communicator joined under its
    own rank and the last rank of the group as client rank, the same holds
    after the process has got through any sequence of commands and
    interrupts, and every broadcast the process has made names the last
    rank of its group as source. *)
Theorem worker_keeps_rank_with_communicator (w : worker) :
  Forall coherent (tp_workers (engine w)) →
  Forall from_last_rank (wlog w) →
  Forall coherent (tp_workers (engine (run w)))
  ∧ Forall from_last_rank (wlog (run w)).
Proof.
  unfold run. generalize (inbox w) as pending. intros pending. revert w.
  induction pending as [|a pending IH]; intros w Hw Hlog; [done|].
  cbn [llm_worker_loop]. destruct (status w); try done.
  destruct (llm_worker_step_coherent a w Hw Hlog). by apply IH.
Qed.
End ext_more.

(** ** The shard process and its pipe *)

Section worker_more.
Import Worker Inv Spec.

Lemma llm_worker_step_handled a (w : worker) :
  handled (llm_worker_step a w) = handled w ++ [a]
  ∧ inbox (llm_worker_step a w) = inbox w
  ∧ exits_in (llm_worker_step a w) = exits_in w.
Proof.
  destruct a as [[ty mc|]|]; unfold llm_worker_step.
  - change (engine (received (Cmd (Invoke ty mc)) w)) with (engine w).
    by destruct (run_method mc (engine w)) as [[[res| |] l'] log']; [destruct ty|..].
  - done.
  - change (engine (received KeyboardInterrupt w)) with (engine w).
    by destruct (collective_rpc RpcCloseCommunicator (engine w)) as [[[res| |] l'] log'].
Qed.

Lemma llm_worker_loop_conserves pending (w : worker) :
  handled (llm_worker_loop pending w) ++ inbox (llm_worker_loop pending w)
  = handled w ++ pending.
Proof.
  revert w. induction pending as [|a pending IH]; intros w; [done|].
  cbn [llm_worker_loop]. destruct (status w); try done.
  rewrite IH. destruct (llm_worker_step_handled a w) as (-> & _).
  by rewrite <- app_assoc.
Qed.

Lemma run_stopped (w : worker) :
  status w ≠ Running →
  handled (run w) = handled w ∧ inbox (run w) = inbox w
  ∧ outbox (run w) = outbox w ∧ status (run w) = status w
  ∧ engine (run w) = engine w.
Proof.
  intros Hst. unfold run. destruct (inbox w) as [|a pending] eqn:Hin; simpl.
  - done.
  - by destruct (status w) eqn:Hw.
Qed.

(** No call of the engine blocks. *)
Lemma run_each_not_blocked (m : M Ext.state unit) ws :
  (∀ s, (m s).1.1 ≠ Blocked) → (run_each m ws).1.1 ≠ Blocked.
Proof.
  intros Hm. induction ws as [|s ws IH]; [done|]. simpl.
  specialize (Hm s). destruct (m s) as [[r s'] log].
  destruct (run_each m ws) as [[rs ws'] log']. simpl in *.
  by destruct r, rs.
Qed.

Lemma run_method_not_blocked mc (l : llm) : (run_method mc l).1.1 ≠ Blocked.
Proof.
  destruct mc as [prompts sp|r|]; simpl; try done. unfold collective_rpc.
  pose proof (run_each_not_blocked (rpc_method r) (tp_workers l) (rpc_method_not_blocked r)).
  destruct (run_each (rpc_method r) (tp_workers l)) as [[[k| |] ws] log]; done.
Qed.

(** One step of a process that is still running afterwards: the command
    was a method call that succeeded, answered when it was a [call]. *)
Lemma llm_worker_step_running a (w : worker) :
  status w = Running →
  status (llm_worker_step a w) = Running →
  length (outbox (llm_worker_step a w))
  = (length (outbox w) + if is_call a then 1 else 0)%nat.
Proof.
  intros Hw. destruct a as [[ty mc|]|]; unfold llm_worker_step.
  - change (engine (received (Cmd (Invoke ty mc)) w)) with (engine w).
    pose proof (run_method_not_blocked mc (engine w)) as Hnb.
    destruct (run_method mc (engine w)) as [[[res| |] l'] log']; simpl in *; try done.
    destruct ty; simpl; intros _; [rewrite length_app; simpl|]; lia.
  - done.
  - change (engine (received KeyboardInterrupt w)) with (engine w).
    pose proof (run_method_not_blocked (CallCollectiveRpc RpcCloseCommunicator) (engine w))
      as Hnb.
    change (run_method (CallCollectiveRpc RpcCloseCommunicator) (engine w))
      with (collective_rpc RpcCloseCommunicator (engine w)) in Hnb.
    destruct (collective_rpc RpcCloseCommunicator (engine w)) as [[[res| |] l'] log'];
      simpl in *; done.
Qed.

Lemma llm_worker_loop_stopped pending (w : worker) :
  status w ≠ Running → status (llm_worker_loop pending w) = status w.
Proof. intros Hst. destruct pending; simpl; [done|]. by destruct (status w) eqn:Hw. Qed.

Lemma llm_worker_loop_running pending (w : worker) :
  status (llm_worker_loop pending w) = Running →
  inbox (llm_worker_loop pending w) = []
  ∧ length (outbox (llm_worker_loop pending w))
    = (length (outbox w) + length (filter (λ a, is_call a = true) pending))%nat.
Proof.
  revert w. induction pending as [|a pending IH]; intros w Hrun.
  - simpl. split; [done|]. lia.
  - cbn [llm_worker_loop] in *.
    destruct (status w) eqn:Hw; try (simpl in Hrun; congruence).
    destruct (status (llm_worker_step a w)) eqn:Hs;
      try (rewrite llm_worker_loop_stopped in Hrun by (by rewrite Hs); congruence).
    destruct (IH _ Hrun) as [Hin Hout]. split; [done|].
    rewrite Hout, (llm_worker_step_running a w Hw Hs).
    rewrite filter_cons. destruct (is_call a); simpl; try case_decide; simpl; done || lia.
Qed.

(** X6.  Replies and calls go one to one: when the process is still
    running after it has got through its pipe, the pipe is empty,
    everything in it has been handled in order, and the process has sent
    exactly one message for every [call] command and none for any
    fire-and-forget command. *)
Theorem worker_replies_to_calls_only (w : worker) :
  status (run w) = Running →
  inbox (run w) = []
  ∧ handled (run w) = handled w ++ inbox w
  ∧ length (outbox (run w))
    = (length (outbox w) + length (filter (λ a, is_call a = true) (inbox w)))%nat.
Proof.
  intros Hrun. destruct (llm_worker_loop_running (inbox w) w Hrun) as [Hin Hout].
  split; [done|]. split; [|done].
  pose proof (llm_worker_loop_conserves (inbox w) w) as Hc.
  unfold run in *. rewrite Hin, app_nil_r in Hc. done.
Qed.

Lemma run_each_close (ws : list Ext.state) :
  ∃ k ws' log,
    run_each Ext.close_communicator ws = (Ok k, ws', log)
    ∧ Forall (λ s, Ext.pynccl_comm s = None) ws'
    ∧ Forall2 (λ s s', Ext.model s' = Ext.model s) ws ws'.
Proof.
  induction ws as [|s ws (k & ws' & log & Heq & Hnone & Hmodel)].
  - by exists 0%nat, [], [].
  - simpl. rewrite Heq.
    destruct s as [d wr inc [c|] cr m]; simpl; do 3 eexists; (split; [done|]);
      split; by constructor.
Qed.

(** X7.  A [KeyboardInterrupt] while the worker waits for a command ends
    the process in order: every tensor-parallel worker's communicator is
    closed, the models are as they were, nothing is sent to the parent,
    and the process has exited, not crashed. *)
Theorem keyboard_interrupt_closes_and_exits (w : worker) :
  let w' := llm_worker_step KeyboardInterrupt w in
  status w' = Exited
  ∧ outbox w' = outbox w
  ∧ Forall (λ s, Ext.pynccl_comm s = None) (tp_workers (engine w'))
  ∧ Forall2 (λ s s', Ext.model s' = Ext.model s)
      (tp_workers (engine w)) (tp_workers (engine w')).
Proof.
  unfold llm_worker_step, collective_rpc.
  change (engine (received KeyboardInterrupt w)) with (engine w).
  change (rpc_method RpcCloseCommunicator) with Ext.close_communicator.
  destruct (run_each_close (tp_workers (engine w))) as (k & ws' & log & -> & Hnone & Hmodel).
  done.
Qed.
End worker_more.

(** ** Misuse through the control plane, and calls on a dead shard *)

Section crash_facts.
Import Worker Inv Spec.

Lemma run_each_all_raise (m : M Ext.state unit) (e : exn) (ws : list Ext.state) :
  (∀ s, s ∈ ws → m s = (Raise e, s, [])) →
  (run_each m ws).1.2 = ws ∧ (run_each m ws).2 = []
  ∧ (ws ≠ [] → (run_each m ws).1.1 = Raise e).
Proof.
  induction ws as [|s ws IH]; intros Hall; [done|].
  simpl. rewrite (Hall s) by apply list_elem_of_here.
  destruct IH as (Hws & Hlog & _).
  { intros s' Hs'. by apply Hall, list_elem_of_further. }
  destruct (run_each m ws) as [[rs ws'] log']. simpl in *. by subst.
Qed.

(** A running worker with an empty pipe that is sent one fire-and-forget
    [collective_rpc] which raises on each of its tensor-parallel workers. *)
Lemma run_fire_and_forget_raise (w : worker) (r : rpc) (e : exn) :
  status w = Running → inbox w = [] → tp_workers (engine w) ≠ [] →
  (∀ s, s ∈ tp_workers (engine w) → rpc_method r s = (Raise e, s, [])) →
  let w' := run (send (Invoke fire_and_forget (CallCollectiveRpc r)) w) in
  status w' = Crashed e ∧ outbox w' = outbox w ∧ inbox w' = []
  ∧ tp_workers (engine w') = tp_workers (engine w).
Proof.
  destruct w as [l inb outb hd lg st ex]. simpl. intros -> -> Hne Hall.
  unfold run, send. simpl. unfold collective_rpc.
  destruct (run_each_all_raise _ e _ Hall) as (Hws & Hlog & Hres).
  specialize (Hres Hne).
  destruct (run_each (rpc_method r) (tp_workers l)) as [[res ws] log]. simpl in *.
  by subst.
Qed.

(** X8.  Misuse of the group state through the control plane ends the
    shard process.  A running shard with an empty pipe and at least one
    tensor-parallel worker that is sent [update_named_param] while none of
    its workers has a communicator, or [init_communicator] while all of
    them have one, crashes with the [RuntimeError] of the extension: it
    sends nothing to the parent, its workers are as they were, and the
    process is no longer running. *)
Theorem misuse_ends_the_shard_process (conn : worker) host port world_size name dtype shape :
  status conn = Running → inbox conn = [] → tp_workers (engine conn) ≠ [] →
  ((∀ s, s ∈ tp_workers (engine conn) → Ext.pynccl_comm s = None) →
   let conn' := run (send (Invoke fire_and_forget
                             (CallCollectiveRpc (RpcUpdateNamedParam name dtype shape))) conn) in
   status conn'
   = Crashed (RuntimeError "Communicator not initialised. Call init_communicator() first.")
   ∧ outbox conn' = outbox conn
   ∧ tp_workers (engine conn') = tp_workers (engine conn))
  ∧ ((∀ s, s ∈ tp_workers (engine conn) → Ext.pynccl_comm s ≠ None) →
     let conn' := run (send (Invoke fire_and_forget
                               (CallCollectiveRpc (RpcInitCommunicator host port world_size)))
                         conn) in
     status conn'
     = Crashed (RuntimeError
         "Weight update group already initialised; call close_communicator() first.")
     ∧ outbox conn' = outbox conn
     ∧ tp_workers (engine conn') = tp_workers (engine conn)).
Proof.
  intros Hst Hin Hne. split; intros Hall conn'.
  - destruct (run_fire_and_forget_raise conn (RpcUpdateNamedParam name dtype shape)
                (RuntimeError "Communicator not initialised. Call init_communicator() first.")
                Hst Hin Hne) as (? & ? & _ & ?); [|done].
    intros s Hs. by apply ext_update_inactive, Hall.
  - destruct (run_fire_and_forget_raise conn (RpcInitCommunicator host port world_size)
                (RuntimeError
                   "Weight update group already initialised; call close_communicator() first.")
                Hst Hin Hne) as (? & ? & _ & ?); [|done].
    intros s Hs. specialize (Hall s Hs).
    destruct (Ext.pynccl_comm s) as [c|] eqn:Hc; [|done]. by eapply ext_init_active.
Qed.

(** The lemmas on an ended process below are facts of the modelled pipe,
    on which a send is always queued.  The code's pipe behaves so for the
    shard spawned last, whose child end the parent keeps open; that is
    where the theorem on a dead last shard uses them. *)
Lemma recv_dead (conn : worker) : dead conn → (recv conn).1 = None.
Proof.
  intros [Hst Hout]. unfold recv.
  destruct (run_stopped conn Hst) as (_ & _ & Hout' & _). by rewrite Hout', Hout.
Qed.

Lemma recv_each_blocked (keep : worker → bool) (connections : list worker) :
  (∃ conn, conn ∈ connections ∧ keep conn = true ∧ dead conn) →
  (Server.recv_each keep connections).1 = Blocked.
Proof.
  induction connections as [|conn connections IH]; intros (dc & Hin & Hkeep & Hdead).
  - by apply elem_of_nil in Hin.
  - cbn [Server.recv_each]. apply elem_of_cons in Hin as [<-|Hin].
    + rewrite Hkeep. pose proof (recv_dead dc Hdead) as Hr.
      destruct (recv dc) as [[m|] conn']; [done|]. done.
    + assert (Hrest : (Server.recv_each keep connections).1 = Blocked) by (apply IH; eauto).
      destruct (Server.recv_each keep connections) as [r connections'']. simpl in Hrest. subst.
      destruct (keep conn); [|done]. by destruct (recv conn) as [[m|] conn'].
Qed.

Lemma send_dead c (conn : worker) : dead conn → dead (send c conn).
Proof. by intros [? ?]. Qed.

Lemma send_chunks_dead sp (connections : list worker) chunks :
  (∃ conn, conn ∈ connections ∧ dead conn) →
  ∃ conn, conn ∈ Server.send_chunks sp connections chunks ∧ dead conn.
Proof.
  revert chunks. induction connections as [|conn connections IH];
    intros chunks (dc & Hin & Hdead).
  - by apply elem_of_nil in Hin.
  - destruct chunks as [|ch chunks]; [by exists dc|].
    cbn [Server.send_chunks]. apply elem_of_cons in Hin as [<-|Hin].
    + eexists. split; [apply list_elem_of_here|]. by apply send_dead.
    + destruct (IH chunks) as (conn' & Hin' & Hdead'); [by exists dc|].
      exists conn'. split; [by apply list_elem_of_further|done].
Qed.

Lemma generate_blocked script_args request (connections : list worker) :
  (∃ conn, conn ∈ connections ∧ dead conn) →
  Server.data_parallel_size script_args ≠ 0 →
  (Server.generate script_args request connections).1 = Blocked.
Proof.
  intros (dc & Hin & Hdead).
  - intros Hdp. unfold Server.generate.
    destruct (Chunk.chunk_list (Server.prompts request)
                (Server.data_parallel_size script_args)) as [chunks| |] eqn:Hc;
      try (rewrite chunk_list_unfold in Hc by done; discriminate).
    destruct (send_chunks_dead (Server.sampling_params request) connections chunks)
      as (conn' & Hin' & Hdead'); [by exists dc|].
    pose proof (recv_each_blocked Server.conn_truthy _ (ex_intro _ conn' (conj Hin' (conj eq_refl Hdead'))))
      as Hb.
    destruct (Server.recv_each _ _) as [r conns]. simpl in Hb. by rewrite Hb.
Qed.

Lemma run_stopped_eq (w : worker) : status w ≠ Running → run w = w.
Proof.
  intros Hst. unfold run. destruct w as [l pending out h log st x]. simpl in *.
  destruct pending as [|a rest]; simpl; [done|]. by destruct st.
Qed.

Lemma recv_dead_eq (conn : worker) : dead conn → recv conn = (None, conn).
Proof.
  intros [Hst Hout]. unfold recv. rewrite run_stopped_eq by done. by rewrite Hout.
Qed.

Lemma recv_each_reset_dead_last (front : list worker) (last : worker) :
  (∀ conn, conn ∈ front → idle conn) →
  dead last →
  let c := Invoke call CallResetPrefixCache in
  Server.recv_each (λ _, true) (send c <$> front ++ [last])
  = (Blocked, (answered c <$> front) ++ [send c last]).
Proof.
  induction front as [|conn front IH]; intros Hidle Hdead c.
  - cbn [app fmap list_fmap Server.recv_each].
    by rewrite (recv_dead_eq (send c last)) by by apply send_dead.
  - assert (Htl : ∀ conn', conn' ∈ front → idle conn')
      by (intros conn' Hin; by apply Hidle, list_elem_of_further).
    specialize (IH Htl Hdead). rewrite <- app_comm_cons, !fmap_cons.
    cbn [Server.recv_each].
    rewrite recv_reset_prefix_cache by (apply Hidle, list_elem_of_here).
    subst c. cbv zeta in IH. by rewrite IH.
Qed.

(** X9.  A call that waits for every shard never returns when the
    process of the shard spawned last has ended with nothing left to
    receive, the other shards being idle: the parent still holds the
    child end of that shard's pipe, so nothing tells it that the shard is
    gone.  [reset_prefix_cache] blocks once every other shard has
    answered and its reply has been taken, the call for the last shard
    staying in the pipe; [generate] blocks as well, for any request (with
    a [data_parallel_size] other than zero). *)
Theorem call_blocks_on_dead_last_shard script_args request
    (front : list worker) (last : worker) :
  (∀ conn, conn ∈ front → idle conn) →
  dead last →
  Server.reset_prefix_cache (front ++ [last])
  = (Blocked,
     (answered (Invoke call CallResetPrefixCache) <$> front)
     ++ [send (Invoke call CallResetPrefixCache) last])
  ∧ (Server.data_parallel_size script_args ≠ 0 →
     (Server.generate script_args request (front ++ [last])).1 = Blocked).
Proof.
  intros Hidle Hdead. split.
  - unfold Server.reset_prefix_cache.
    by rewrite (recv_each_reset_dead_last front last Hidle Hdead).
  - intros Hdp. apply generate_blocked; [|done].
    exists last. split; [|done]. apply elem_of_app. right. apply list_elem_of_here.
Qed.
End crash_facts.

(** ** The client's requests, end to end *)

Section client_ops_facts.
Import Worker Inv Spec.

Lemma http_call_fault {A} ev (endpoint : list worker → result A * list worker)
    (w : Client.world) code :
  Client.http_fault w = Some code →
  ClientOps.http_call ev endpoint w = (Ok (Client.mkResponse code None), w, [ev]).
Proof. destruct w. simpl. intros ->. reflexivity. Qed.

Lemma http_call_ok {A} ev (endpoint : list worker → result A * list worker)
    (w : Client.world) a conns :
  Client.http_fault w = None → endpoint (Client.connections w) = (Ok a, conns) →
  ClientOps.http_call ev endpoint w
  = (Ok (Client.mkResponse 200 (Some a)), Client.set_connections conns w, [ev]).
Proof.
  destruct w. simpl. intros -> He.
  unfold ClientOps.http_call, mbind', get, emit, put, ret. simpl. by rewrite He.
Qed.

Lemma http_call_raise {A} ev (endpoint : list worker → result A * list worker)
    (w : Client.world) e conns :
  Client.http_fault w = None → endpoint (Client.connections w) = (Raise e, conns) →
  ClientOps.http_call ev endpoint w
  = (Ok (Client.mkResponse 500 None), Client.set_connections conns w, [ev]).
Proof.
  destruct w. simpl. intros -> He.
  unfold ClientOps.http_call, mbind', get, emit, put, ret. simpl. by rewrite He.
Qed.

Lemma spawn_length start script_args :
  length (Server.spawn start script_args) = Z.to_nat (Server.data_parallel_size script_args).
Proof. unfold Server.spawn. by rewrite length_fmap, length_seqZ. Qed.

Lemma send_chunks_length sp (connections : list worker) chunks :
  length (Server.send_chunks sp connections chunks) = length connections.
Proof.
  revert chunks. induction connections as [|conn connections IH]; intros [|ch chunks];
    simpl; try done. by rewrite IH.
Qed.

Lemma recv_each_length keep (connections : list worker) :
  length (Server.recv_each keep connections).2 = length connections.
Proof.
  induction connections as [|conn connections IH]; [done|].
  cbn [Server.recv_each].
  destruct (Server.recv_each keep connections) as [r connections'']. simpl in IH.
  destruct (keep conn); [destruct (recv conn) as [[m|] conn']|]; simpl; by rewrite ?IH.
Qed.

Lemma generate_length script_args request (connections : list worker) :
  length (Server.generate script_args request connections).2 = length connections.
Proof.
  unfold Server.generate. destruct (Chunk.chunk_list _ _) as [chunks| |]; try done.
  pose proof (recv_each_length Server.conn_truthy
                (Server.send_chunks (Server.sampling_params request) connections chunks)) as Hl.
  rewrite send_chunks_length in Hl.
  by destruct (Server.recv_each _ _) as [[outs| |] conns].
Qed.

(** X10.  A generate request from the client to the fleet that [main]
    spawns, every shard an idle replica: with at least one shard and at
    least as many prompts as shards, the client gets back the completions
    of its prompts, prompt after prompt, and nothing else; one request is
    made, and the client itself is as before. *)
Theorem client_generate_returns_completions cmpl (start : Z → worker)
    (request : Server.GenerateRequest) (w : Client.world) :
  let dp := Server.data_parallel_size (Client.script_args w) in
  Client.http_fault w = None →
  Client.connections w = Server.spawn start (Client.script_args w) →
  (∀ dp_rank, idle (start dp_rank) ∧ complete (engine (start dp_rank)) = cmpl) →
  1 ≤ dp → dp ≤ Z.of_nat (length (Server.prompts request)) →
  ∃ w1,
    ClientOps.generate request w
    = (Ok (answer_for cmpl (Server.sampling_params request) (Server.prompts request)),
       w1, [EvHttpPost "/generate/"])
    ∧ Client.client w1 = Client.client w
    ∧ length (Client.connections w1) = Z.to_nat dp.
Proof.
  intros dp Hf Hconns Hstart Hdp Hle.
  pose proof (generate_preserves_order cmpl (Client.script_args w) request
                (Client.connections w) Hdp Hle) as Hgen.
  destruct (Server.generate (Client.script_args w) request (Client.connections w))
    as [r conns] eqn:Hg.
  simpl in Hgen. rewrite Hgen in Hg.
  - exists (Client.set_connections conns w).
    unfold ClientOps.generate, mbind', get.
    rewrite (http_call_ok _ _ _ _ _ Hf Hg). simpl.
    split; [done|]. split; [by destruct w|].
    pose proof (generate_length (Client.script_args w) request (Client.connections w)) as Hl.
    rewrite Hg, Hconns, spawn_length in Hl. by destruct w.
  - rewrite Hconns. apply spawn_length.
  - intros conn Hin. rewrite Hconns in Hin. unfold Server.spawn in Hin.
    apply list_elem_of_fmap in Hin as (dp_rank & -> & _). apply Hstart.
Qed.
Lemma generate_zero_shards script_args request (connections : list worker) :
  Server.data_parallel_size script_args = 0 →
  Server.generate script_args request connections = (Raise ZeroDivisionError, connections).
Proof. intros Hdp. unfold Server.generate, Chunk.chunk_list. by rewrite Hdp. Qed.

(** X11.  The client's [generate] hands out completions on a 200 only.
    A response with another status makes it raise its request-failure
    exception with the fleet untouched; so does a server whose
    [data_parallel_size] is zero, where the endpoint fails on the division
    before anything is sent to a shard. *)
Theorem client_generate_failures (request : Server.GenerateRequest) (w : Client.world) :
  (∀ code, Client.http_fault w = Some code → code ≠ 200 →
     ClientOps.generate request w
     = (Raise (Exception "Generate request failed"), w, [EvHttpPost "/generate/"]))
  ∧ (Client.http_fault w = None →
     Server.data_parallel_size (Client.script_args w) = 0 →
     ClientOps.generate request w
     = (Raise (Exception "Generate request failed"), w, [EvHttpPost "/generate/"])).
Proof.
  split.
  - intros code Hf Hcode. unfold ClientOps.generate, mbind', get.
    rewrite (http_call_fault _ _ _ _ Hf). simpl. by rewrite decide_False.
  - intros Hf Hdp. unfold ClientOps.generate, mbind', get.
    rewrite (http_call_raise _ _ _ ZeroDivisionError (Client.connections w) Hf)
      by by apply generate_zero_shards.
    simpl. by destruct w.
Qed.

Lemma reset_prefix_cache_idle (connections : list worker) :
  (∀ conn, conn ∈ connections → idle conn) →
  ∃ message,
    Server.reset_prefix_cache connections
    = (Ok message, answered (Invoke call CallResetPrefixCache) <$> connections).
Proof.
  intros Hidle. unfold Server.reset_prefix_cache.
  rewrite recv_each_reset_prefix_cache by done. by eexists.
Qed.

(** X12.  The client's [reset_prefix_cache] does not report what the
    shards report: on idle shards it succeeds and returns nothing,
    whether or not the shards succeeded in resetting their caches (the
    status in the server's message is not read); a response other than
    200 makes it raise. *)
Theorem client_reset_prefix_cache_drops_status (w : Client.world) :
  (Client.http_fault w = None →
   (∀ conn, conn ∈ Client.connections w → idle conn) →
   ClientOps.reset_prefix_cache w
   = (Ok tt,
      Client.set_connections
        (answered (Invoke call CallResetPrefixCache) <$> Client.connections w) w,
      [EvHttpPost "/reset_prefix_cache/"]))
  ∧ (∀ code, Client.http_fault w = Some code → code ≠ 200 →
     ClientOps.reset_prefix_cache w
     = (Raise (Exception "Reset prefix cache failed"), w,
        [EvHttpPost "/reset_prefix_cache/"])).
Proof.
  split.
  - intros Hf Hidle. destruct (reset_prefix_cache_idle _ Hidle) as [message Hr].
    unfold ClientOps.reset_prefix_cache, mbind'.
    by rewrite (http_call_ok _ _ _ _ _ Hf Hr).
  - intros code Hf Hcode. unfold ClientOps.reset_prefix_cache, mbind'.
    rewrite (http_call_fault _ _ _ _ Hf). simpl. by rewrite decide_True.
Qed.

Lemma ext_close_eq (s : Ext.state) :
  rpc_method RpcCloseCommunicator s
  = (Ok tt,
     match Ext.pynccl_comm s with
     | Some _ => Ext.State (Ext.device s) (Ext.world_rank s) (Ext.incoming s) None None
                   (Ext.model s)
     | None => s
     end,
     match Ext.pynccl_comm s with Some c => [EvRelease c] | None => [] end).
Proof. by destruct s as [d wr inc [c|] cr m]. Qed.

(** X13.  The client's [close_communicator].  When the request does not
    get to the server the connection error is passed over: the call
    succeeds and nothing changes.  When it does, the close is fanned out,
    and once the shards have handled it every tensor-parallel worker of
    every running shard is without communicator and the shard still runs;
    a response other than 200 raises.  In no case does the client give up
    its own rank or communicator. *)
Theorem client_close_communicator (w : Client.world) :
  ClientOps.close_communicator false w = (Ok tt, w, [EvHttpPost "/close_communicator/"])
  ∧ (Client.http_fault w = None →
     ∃ w1,
       ClientOps.close_communicator true w = (Ok tt, w1, [EvHttpPost "/close_communicator/"])
       ∧ Client.client w1 = Client.client w
       ∧ ∀ conn s,
           (∀ conn0, conn0 ∈ Client.connections w → status conn0 = Running ∧ inbox conn0 = []) →
           conn ∈ Client.connections (Client.shards_run w1) →
           s ∈ tp_workers (engine conn) →
           status conn = Running ∧ Ext.pynccl_comm s = None)
  ∧ (∀ code, Client.http_fault w = Some code → code ≠ 200 →
     ClientOps.close_communicator true w
     = (Raise (Exception "Close communicator failed"), w,
        [EvHttpPost "/close_communicator/"])).
Proof.
  split; [done|]. split.
  - intros Hf. exists (Client.set_connections (Server.fan_out RpcCloseCommunicator
                                                 (Client.connections w)) w).
    split; [by destruct w; simpl in *; subst|]. split; [by destruct w|].
    intros conn s Hall Hconn Hs. destruct w as [cl args conns fault]. simpl in *.
    unfold Server.fan_out in Hconn. rewrite <- list_fmap_compose in Hconn.
    apply list_elem_of_fmap in Hconn as (conn0 & -> & Hconn0).
    destruct (Hall conn0 Hconn0) as [Hst Hin]. simpl in Hs |- *.
    pose proof (run_fire_and_forget_ok conn0 RpcCloseCommunicator _ _ Hst Hin
                  (λ s _, ext_close_eq s)) as Hrun.
    simpl in Hrun. rewrite Hrun in Hs |- *. simpl in Hs |- *. split; [done|].
    apply list_elem_of_fmap in Hs as (s0 & -> & _). by destruct (Ext.pynccl_comm s0) eqn:Hc.
  - intros code Hf Hcode. destruct w as [cl args conns fault]. simpl in *. subst.
    unfold ClientOps.close_communicator, Client.http, mbind', get, emit, ret. simpl.
    by rewrite decide_True.
Qed.
End client_ops_facts.

(** ** A weight update from the client to the models of the shards *)

Section round_trip_facts.
Import Worker Inv Spec.

Lemma ext_update_eq name dtype shape (s : Ext.state) :
  Ext.pynccl_comm s ≠ None →
  rpc_method (RpcUpdateNamedParam name dtype shape) s
  = (Ok tt, updated name dtype shape s,
     match Ext.pynccl_comm s with
     | Some c =>
         [EvTorchEmpty shape dtype (Ext.device s);
          EvBroadcast c (Tensor dtype shape []) (Ext.client_rank s);
          EvBarrier c;
          EvLoadWeights name (Ext.incoming s (Ext.client_rank s) (Tensor dtype shape []))]
     | None => []
     end).
Proof. by destruct s as [d wr inc [c|] cr m]. Qed.

(** X14.  A parameter pushed by the client arrives in every model.  From
    fresh shards: the client initialises the communicator, the shards
    handle that, the client updates the parameter [name] with its tensor
    (whose dtype name holds no dot) and the shards handle that; then every
    shard still runs, and in the model of each of its tensor-parallel
    workers [name] is bound to what the collective delivered to that
    worker for a broadcast from the client's rank into a buffer of the
    dtype and shape of the client's tensor. *)
Theorem pushed_parameter_reaches_every_model (w : Client.world) name weights :
  Client.http_fault w = None →
  (∀ conn, conn ∈ Client.connections w → fresh conn) →
  Server.has_dot (t_dtype weights) = false →
  ∃ w1 log1 w2 log2,
    Client.init_communicator w = (Ok tt, w1, log1)
    ∧ Client.update_named_param name weights (Client.shards_run w1) = (Ok tt, w2, log2)
    ∧ ∀ conn s,
        conn ∈ Client.connections (Client.shards_run w2) →
        s ∈ tp_workers (engine conn) →
        status conn = Running
        ∧ Ext.model s !! name
          = Some (Ext.incoming s (Client.rank (Client.client w2))
                    (Tensor (t_dtype weights) (t_shape weights) [])).
Proof.
  intros Hf Hfresh Hdot.
  do 4 eexists. split; [by apply client_init_ok|].
  split; [by eapply client_update_ok|].
  intros conn s Hconn Hs. simpl in Hconn.
  unfold Server.fan_out in Hconn. rewrite <- !list_fmap_compose in Hconn.
  apply list_elem_of_fmap in Hconn as (conn0 & -> & Hconn0).
  destruct (Hfresh conn0 Hconn0) as (Hst & Hin & Hnone).
  simpl in Hs |- *.
  set (vws := Server.get_world_size (Client.script_args w)) in *.
  set (host := "0.0.0.0") in *. set (port := Client.group_port (Client.client w)) in *.
  change (if Server.has_dot ("" +:+ t_dtype weights)
          then Server.after_last_dot ("" +:+ t_dtype weights)
          else "" +:+ t_dtype weights)
    with (Server.after_last_dot ("torch" +:+ "." +:+ t_dtype weights)) in *.
  rewrite after_last_dot_suffix in Hs |- * by done.
  pose proof (run_fire_and_forget_ok conn0 (RpcInitCommunicator host port (vws + 1))
             (λ s, Ext.State (Ext.device s) (Ext.world_rank s) (Ext.incoming s)
                (Some (Communicator (ProcessGroup host port (Ext.world_rank s) (vws + 1))
                         (Ext.device s)))
                (Some (vws + 1 - 1)) (Ext.model s))
             (λ s, [EvCreateGroup (ProcessGroup host port (Ext.world_rank s) (vws + 1))])
             Hst Hin) as Hrun1.
  simpl in Hrun1. rewrite Hrun1 in Hs |- *;
    [|intros s0 Hs0; by apply ext_init_fresh, Hnone..].
  match type of Hs with
  | context [run (send ?c ?conn1)] =>
      pose proof (run_fire_and_forget_ok conn1
                    (RpcUpdateNamedParam name (t_dtype weights) (t_shape weights)) _ _
                    eq_refl eq_refl
                    (λ s0 Hs0, ext_update_eq name (t_dtype weights) (t_shape weights) s0
                       ltac:(simpl in Hs0; apply list_elem_of_fmap in Hs0 as (? & -> & _);
                             done))) as Hrun2
  end.
  simpl in Hrun2. rewrite Hrun2 in Hs |- *. simpl in Hs |- *. split; [done|].
  rewrite <- list_fmap_compose in Hs.
  apply list_elem_of_fmap in Hs as (s0 & -> & _). simpl.
  rewrite lookup_insert_eq. by replace (vws + 1 - 1) with vws by lia.
Qed.
End round_trip_facts.

(** ** The health check against a server that comes up, and the constructor *)

Section check_server_more.
Import Client Inv.
Context (net : network) (total_timeout retry_interval : Z).

Lemma loop_retried start (d j : nat) :
  0 ≤ retry_interval →
  (∀ i, (j ≤ i < j + d)%nat → retried net total_timeout retry_interval start i) →
  answer net (j + d) = Response 200 →
  check_server_loop net total_timeout retry_interval start (S d)
    (Hc (clock_at net retry_interval start j) j)
  = (Ok (Some tt),
     Hc (clock_at net retry_interval start (j + d) + latency net (j + d)) (S (j + d)),
     concat (replicate d [EvHttpGet "/health/"; EvSleep retry_interval])
     ++ [EvHttpGet "/health/"]).
Proof.
  intros Hr. revert j. induction d as [|d IH]; intros j Hretried H200.
  - rewrite Nat.add_0_r in *. by rewrite loop_S, body_returns.
  - replace (j + S d)%nat with (S j + d)%nat in * by lia.
    specialize (IH (S j) ltac:(intros; apply Hretried; lia) H200).
    pose proof (Hretried j ltac:(lia)) as Hj. unfold retried in Hj.
    rewrite loop_S. destruct (answer net j) as [|code] eqn:Hans.
    + rewrite body_retries_after_exception by done.
      change (Hc (clock_at net retry_interval start j + latency net j + retry_interval) (S j))
        with (Hc (clock_at net retry_interval start (S j)) (S j)).
      by rewrite IH.
    + rewrite (body_retries_after_status _ _ _ _ _ _ code) by done.
      change (Hc (clock_at net retry_interval start j + latency net j + retry_interval) (S j))
        with (Hc (clock_at net retry_interval start (S j)) (S j)).
      by rewrite IH.
Qed.

(** X15.  The health check against a server that comes up.  When request
    [k] is the first one answered 200, and each request before it was
    answered with another status, or failed with less than the total
    timeout elapsed when it failed, the check returns without error at
    request [k]: it has made [k + 1] requests and slept the retry interval
    [k] times, once after every request but the last. *)
Theorem check_server_returns_once_healthy (start : Z) (k : nat) :
  0 ≤ retry_interval →
  (∀ i, (i < k)%nat → retried net total_timeout retry_interval start i) →
  answer net k = Response 200 →
  check_server net total_timeout retry_interval (S k) (Hc start 0)
  = (Ok (Some tt),
     Hc (clock_at net retry_interval start k + latency net k) (S k),
     concat (replicate k [EvHttpGet "/health/"; EvSleep retry_interval])
     ++ [EvHttpGet "/health/"]).
Proof.
  intros Hr Hretried H200. rewrite check_server_eq.
  apply (loop_retried start k 0 Hr); [|done]. intros i Hi. apply Hretried. lia.
Qed.

(** X16.  The constructor.  When the first request of its health check
    is answered 200, it returns a client with the given host and ports
    and neither rank nor communicator, after that one request.  With a
    connection timeout of zero or less, as by default, a first request
    that fails makes it raise the connection error at once: no second
    request, no sleep. *)
Theorem new_client_checks_once host server_port group_port fuel (s0 : hc) :
  (answer net (attempt s0) = Response 200 →
   ClientOps.new host server_port group_port total_timeout net (S fuel) s0
   = (Ok (Some (mkClient host server_port group_port None None)),
      Hc (clock s0 + latency net (attempt s0)) (S (attempt s0)),
      [EvHttpGet "/health/"]))
  ∧ (answer net (attempt s0) = RequestException →
     total_timeout ≤ 0 → 0 ≤ latency net (attempt s0) →
     ClientOps.new host server_port group_port total_timeout net (S fuel) s0
     = (Raise (ConnectionError "Cannot reach vLLM server"),
        Hc (clock s0 + latency net (attempt s0)) (S (attempt s0)),
        [EvHttpGet "/health/"])).
Proof.
  destruct s0 as [clk k]. simpl. split.
  - intros H200. unfold ClientOps.new, mbind'.
    by rewrite check_server_eq, loop_S, body_returns.
  - intros Hex Ht Hlat. unfold ClientOps.new, mbind'.
    rewrite check_server_eq, loop_S, body_raises by (done || simpl; lia). done.
Qed.
End check_server_more.

(** ** Pushing a whole model, and the batches of a generate request *)

Section batch_facts.
Import Worker Inv Spec.

(** The command the control plane fans out for one named parameter. *)
Local Notation "'update_cmd' p" :=
  (Cmd (Invoke fire_and_forget
          (CallCollectiveRpc
             (RpcUpdateNamedParam p.1 (Server.after_last_dot (Client.str_dtype p.2))
                (t_shape p.2))))) (at level 10).

Lemma http_fault_set_connections conns (w : Client.world) :
  Client.http_fault (Client.set_connections conns w) = Client.http_fault w
  ∧ Client.client (Client.set_connections conns w) = Client.client w.
Proof. by destruct w. Qed.

Lemma update_model_params_ok (named_parameters : list (string * tensor))
    (w : Client.world) (c : communicator) :
  Client.http_fault w = None →
  Client.pynccl_comm (Client.client w) = Some c →
  ∃ w1,
    ClientOps.update_model_params named_parameters w
    = (Ok tt, w1,
       concat ((λ p, [EvHttpPost "/update_named_param/";
                      EvBroadcast c p.2 (Client.rank (Client.client w));
                      EvBarrier c]) <$> named_parameters))
    ∧ Client.client w1 = Client.client w
    ∧ Client.connections w1
      = (λ conn, set_inbox (inbox conn ++ ((λ p, update_cmd p) <$> named_parameters)) conn)
          <$> Client.connections w.
Proof.
  revert w. induction named_parameters as [|[name data] rest IH]; intros w Hf Hc.
  - exists w. split; [done|]. split; [done|].
    rewrite <- (list_fmap_id (Client.connections w)) at 1.
    apply list_fmap_ext. intros i conn _. destruct conn. simpl. by rewrite app_nil_r.
  - cbn [ClientOps.update_model_params]. unfold mbind'.
    rewrite (client_update_ok w c name data Hf Hc).
    match goal with
    | |- context [ClientOps.update_model_params rest ?w'] =>
        destruct (IH w') as (w1 & Hrun & Hcl & Hconns);
          [by destruct w|by destruct w|]
    end.
    rewrite Hrun. exists w1. replace (Client.client (Client.set_connections _ w))
      with (Client.client w) in * by by destruct w.
    split; [done|]. split; [done|].
    rewrite Hconns. destruct w as [cl args conns fault]. simpl.
    unfold Server.fan_out. rewrite <- list_fmap_compose.
    apply list_fmap_ext. intros i conn _. destruct conn. simpl.
    unfold send, set_inbox. simpl. by rewrite <- app_assoc.
Qed.

(** X17.  [update_model_params] pushes the parameters one after the other
    in the order of the list: for each it posts the update, broadcasts the
    tensor from its rank and waits at the barrier, and every shard is sent
    one update command per parameter, in that order, behind what was
    already in its pipe.  A response other than 200 stops the push at that
    parameter: the exception is raised after one request, nothing is
    broadcast and no later parameter is sent. *)
Theorem update_model_params_in_order (named_parameters : list (string * tensor))
    (w : Client.world) :
  (∀ c, Client.http_fault w = None → Client.pynccl_comm (Client.client w) = Some c →
     ∃ w1,
       ClientOps.update_model_params named_parameters w
       = (Ok tt, w1,
          concat ((λ p, [EvHttpPost "/update_named_param/";
                         EvBroadcast c p.2 (Client.rank (Client.client w));
                         EvBarrier c]) <$> named_parameters))
       ∧ Client.client w1 = Client.client w
       ∧ Client.connections w1
         = (λ conn, set_inbox (inbox conn ++ ((λ p, update_cmd p) <$> named_parameters)) conn)
             <$> Client.connections w)
  ∧ (∀ code, Client.http_fault w = Some code → code ≠ 200 → named_parameters ≠ [] →
     ClientOps.update_model_params named_parameters w
     = (Raise (Exception "Update named param failed"), w,
        [EvHttpPost "/update_named_param/"])).
Proof.
  split.
  - intros c Hf Hc. by apply update_model_params_ok.
  - intros code Hf Hcode Hne. destruct named_parameters as [|[name data] rest]; [done|].
    destruct w as [cl args conns fault]. simpl in *. subst.
    cbn [ClientOps.update_model_params]. unfold mbind', Client.update_named_param,
      Client.http, mbind', get, emit, ret, raise. simpl. by rewrite decide_True.
Qed.

Lemma send_chunks_lookup sp (connections : list worker) chunks (i : nat) conn :
  (length connections ≤ length chunks)%nat →
  connections !! i = Some conn →
  ∃ ch, chunks !! i = Some ch
        ∧ Server.send_chunks sp connections chunks !! i
          = Some (send (Invoke call (CallGenerate (Server.or_placeholder ch) sp)) conn).
Proof.
  revert chunks i. induction connections as [|conn0 connections IH];
    intros [|ch chunks] i Hlen Hi; simpl in *; try done; try lia.
  destruct i as [|i]; simpl in *.
  - injection Hi as <-. by exists ch.
  - apply IH; [lia|done].
Qed.

(** X18.  No shard is left out of a generate request and none is sent an
    empty batch: with one connection per shard, the endpoint sends
    connection [i] exactly one [generate] call, whose prompts are chunk
    [i] of the request's prompts when that chunk holds any, and the one
    placeholder prompt when it holds none. *)
Theorem generate_sends_every_shard_a_batch script_args request
    (connections : list worker) chunks (i : nat) conn :
  1 ≤ Server.data_parallel_size script_args →
  length connections = Z.to_nat (Server.data_parallel_size script_args) →
  Chunk.chunk_list (Server.prompts request) (Server.data_parallel_size script_args)
  = Ok chunks →
  connections !! i = Some conn →
  ∃ ch batch,
    chunks !! i = Some ch
    ∧ Server.send_chunks (Server.sampling_params request) connections chunks !! i
      = Some (send (Invoke call (CallGenerate batch (Server.sampling_params request))) conn)
    ∧ batch ≠ []
    ∧ (ch ≠ [] → batch = ch)
    ∧ (ch = [] → batch = ["<placeholder>"]).
Proof.
  intros Hdp Hlen Hc Hi.
  pose proof (chunk_list_length _ _ _ Hdp Hc) as Hn.
  destruct (send_chunks_lookup (Server.sampling_params request) connections chunks i conn
              ltac:(lia) Hi) as (ch & Hch & Hsent).
  exists ch, (Server.or_placeholder ch). split; [done|]. split; [done|].
  by destruct ch.
Qed.
End batch_facts.

(** ** One request after the other *)

Section sequence_facts.
Import Worker Inv Spec.
Context (cmpl : string → SamplingParams → RequestOutput).

Lemma generate_leaves_idle script_args request (connections : list worker) :
  1 ≤ Server.data_parallel_size script_args →
  length connections = Z.to_nat (Server.data_parallel_size script_args) →
  (∀ conn, conn ∈ connections → idle conn ∧ complete (engine conn) = cmpl) →
  length (Server.generate script_args request connections).2 = length connections
  ∧ ∀ conn, conn ∈ (Server.generate script_args request connections).2 →
            idle conn ∧ complete (engine conn) = cmpl.
Proof.
  intros Hdp Hlen Hall. split; [apply generate_length|].
  pose proof (chunk_list_unfold (Server.prompts request)
                (Server.data_parallel_size script_args) ltac:(lia)) as Hchunks.
  pose proof (chunk_list_length _ _ _ Hdp Hchunks) as Hn.
  unfold Server.generate. rewrite Hchunks.
  rewrite recv_each_generate with (cmpl := cmpl) by (done || lia).
  intros conn (conn0 & ch & -> & Hconn0 & _)%elem_of_zip_with.
  split; [apply answered_idle|]. by destruct (Hall conn0 Hconn0).
Qed.

(** X19.  Requests do not disturb one another.  On an idle fleet of
    replicas, one connection per shard, the fleet is idle again after a
    generate request, whatever the number of its prompts; so a request
    that follows, with at least as many prompts as shards, is answered with
    the completions of its own prompts, in order, and nothing else. *)
Theorem generate_after_generate script_args request1 request2 (connections : list worker) :
  1 ≤ Server.data_parallel_size script_args →
  length connections = Z.to_nat (Server.data_parallel_size script_args) →
  (∀ conn, conn ∈ connections → idle conn ∧ complete (engine conn) = cmpl) →
  Server.data_parallel_size script_args ≤ Z.of_nat (length (Server.prompts request2)) →
  let connections1 := (Server.generate script_args request1 connections).2 in
  (∀ conn, conn ∈ connections1 → idle conn)
  ∧ (Server.generate script_args request2 connections1).1
    = Ok (answer_for cmpl (Server.sampling_params request2) (Server.prompts request2)).
Proof.
  intros Hdp Hlen Hall Hle connections1.
  destruct (generate_leaves_idle script_args request1 connections Hdp Hlen Hall)
    as [Hlen1 Hidle1].
  split; [intros conn Hin; by apply Hidle1|].
  apply generate_preserves_order; try done. unfold connections1. by rewrite Hlen1.
Qed.
End sequence_facts.

(** ** The further facts at the sample data *)

(** Three prompts on two shards, sizes 2 and 1: no chunk is empty. *)
Lemma chunk_list_no_empty_chunk_witness :
  (∀ c, c ∈ [[1; 2]; [3]]%nat → c ≠ []) ↔ 2 ≤ Z.of_nat (length [1; 2; 3]%nat).
Proof.
  exact (chunk_list_no_empty_chunk [1; 2; 3]%nat 2 [[1; 2]; [3]]%nat ltac:(lia) eq_refl).
Defined.

(** The dtype of a float32 tensor, as the client writes it and as the
    shards get it. *)
Lemma dtype_name_round_trip_witness :
  Server.after_last_dot "torch.float32" = "float32"
  ∧ Server.after_last_dot "bfloat16" = "bfloat16"
  ∧ Server.after_last_dot (Client.str_dtype Sample.weights) = "float32".
Proof.
  destruct (dtype_name_round_trip "bfloat16" "torch" "float32" Sample.weights)
    as (_ & Hkeep & Hcut & Hrt).
  split; [exact (Hcut eq_refl)|]. split; [exact (Hkeep eq_refl)|exact (Hrt eq_refl)].
Defined.

(** A shard that gets through an init, an update and a cache reset. *)
Lemma worker_keeps_rank_with_communicator_witness :
  Forall Inv.coherent (Worker.tp_workers (Worker.engine (Worker.run Fixture.busy_shard)))
  ∧ Forall Inv.from_last_rank (Worker.wlog (Worker.run Fixture.busy_shard)).
Proof.
  apply (worker_keeps_rank_with_communicator Fixture.busy_shard).
  - repeat constructor.
  - constructor.
Defined.

(** Of the three commands of the busy shard one is a call: one reply. *)
Lemma worker_replies_to_calls_only_witness :
  Worker.inbox (Worker.run Fixture.busy_shard) = []
  ∧ length (Worker.outbox (Worker.run Fixture.busy_shard)) = 1%nat.
Proof.
  destruct (worker_replies_to_calls_only Fixture.busy_shard eq_refl) as (Hin & _ & Hout).
  split; [exact Hin|exact Hout].
Defined.

(** An update sent to a shard that has not joined, and an init sent to
    one that has. *)
Lemma misuse_ends_the_shard_process_witness :
  Server.is_alive (Worker.run (Worker.send Fixture.update_cmd (Sample.shard true))) = false
  ∧ Server.is_alive (Worker.run (Worker.send Fixture.init_cmd Fixture.joined_shard)) = false.
Proof.
  destruct (misuse_ends_the_shard_process (Sample.shard true) "0.0.0.0" 51216 2
              "w" "float32" [2; 1] eq_refl eq_refl ltac:(discriminate)) as [Hupd _].
  destruct (misuse_ends_the_shard_process Fixture.joined_shard "0.0.0.0" 51216 2
              "w" "float32" [2; 1] eq_refl eq_refl ltac:(discriminate)) as [_ Hinit].
  split.
  - destruct Hupd as (Hst & _).
    { by intros s ->%list_elem_of_singleton. }
    unfold Server.is_alive. unfold Fixture.update_cmd. by rewrite Hst.
  - destruct Hinit as (Hst & _).
    { by intros s ->%list_elem_of_singleton. }
    unfold Server.is_alive. unfold Fixture.init_cmd. by rewrite Hst.
Defined.

Lemma sample_front_idle conn : conn ∈ [Sample.shard true] → Spec.idle conn.
Proof. by intros ->%list_elem_of_singleton. Defined.

Lemma crashed_shard_dead : Inv.dead Fixture.crashed_shard.
Proof. split; [discriminate|reflexivity]. Defined.

(** A fleet of two whose second shard has crashed. *)
Lemma call_blocks_on_dead_last_shard_witness :
  Server.reset_prefix_cache [Sample.shard true; Fixture.crashed_shard]
  = (Blocked,
     [Spec.answered (Worker.Invoke Worker.call Worker.CallResetPrefixCache) (Sample.shard true);
      Worker.send (Worker.Invoke Worker.call Worker.CallResetPrefixCache) Fixture.crashed_shard])
  ∧ (Server.generate (Sample.args 1 2) (Sample.request ["a"; "bb"])
       [Sample.shard true; Fixture.crashed_shard]).1 = Blocked.
Proof.
  destruct (call_blocks_on_dead_last_shard (Sample.args 1 2) (Sample.request ["a"; "bb"])
              [Sample.shard true] Fixture.crashed_shard sample_front_idle crashed_shard_dead)
    as [Hr Hg].
  split; [exact Hr|]. apply Hg. simpl. lia.
Defined.

(** Two prompts for the two shards that [main] spawns. *)
Lemma client_generate_returns_completions_witness :
  ∃ w1, ClientOps.generate (Sample.request ["a"; "bb"]) Fixture.world_two
        = (Ok [[1]; [2]], w1, [EvHttpPost "/generate/"]).
Proof.
  destruct (client_generate_returns_completions Sample.echo (λ _, Sample.shard true)
              (Sample.request ["a"; "bb"]) Fixture.world_two eq_refl eq_refl
              ltac:(by intros; repeat split) ltac:(simpl; lia) ltac:(simpl; lia))
    as (w1 & Hrun & _).
  exists w1. exact Hrun.
Defined.

(** A server that answers 503, and a server without shards. *)
Lemma client_generate_failures_witness :
  ClientOps.generate (Sample.request ["a"]) Fixture.world_unavailable
  = (Raise (Exception "Generate request failed"), Fixture.world_unavailable,
     [EvHttpPost "/generate/"])
  ∧ ClientOps.generate (Sample.request ["a"]) Fixture.world_no_shard
    = (Raise (Exception "Generate request failed"), Fixture.world_no_shard,
       [EvHttpPost "/generate/"]).
Proof.
  split.
  - destruct (client_generate_failures (Sample.request ["a"]) Fixture.world_unavailable)
      as (H & _). apply (H 503 eq_refl). lia.
  - destruct (client_generate_failures (Sample.request ["a"]) Fixture.world_no_shard)
      as (_ & H). exact (H eq_refl eq_refl).
Defined.

(** A fleet of which the second shard fails to reset its cache: the
    client's call succeeds all the same. *)
Lemma client_reset_prefix_cache_drops_status_witness :
  (ClientOps.reset_prefix_cache Fixture.world_failing_reset).1.1 = Ok tt
  ∧ (Server.reset_prefix_cache (Client.connections Fixture.world_failing_reset)).1
    = Ok "Reset status: False".
Proof.
  split; [|reflexivity].
  destruct (client_reset_prefix_cache_drops_status Fixture.world_failing_reset) as (H & _).
  rewrite (H eq_refl sample_fleet_idle). reflexivity.
Defined.

(** A client that has joined closes: the shard's worker is without
    communicator, the client keeps its own. *)
Lemma client_close_communicator_witness :
  ∃ w1,
    ClientOps.close_communicator true Sample.world_joined
    = (Ok tt, w1, [EvHttpPost "/close_communicator/"])
    ∧ Client.pynccl_comm (Client.client w1)
      = Some (Communicator (ProcessGroup "0.0.0.0" 51216 1 2) "cuda:0").
Proof.
  destruct (client_close_communicator Sample.world_joined) as (_ & H & _).
  destruct (H eq_refl) as (w1 & Hrun & Hcl & _).
  exists w1. split; [exact Hrun|]. by rewrite Hcl.
Defined.

(** The parameter ["w"] pushed to the one shard of the sample world. *)
Lemma pushed_parameter_reaches_every_model_witness :
  ∃ w1 log1 w2 log2,
    Client.init_communicator Sample.world = (Ok tt, w1, log1)
    ∧ Client.update_named_param "w" Sample.weights (Client.shards_run w1) = (Ok tt, w2, log2)
    ∧ ∀ conn s,
        conn ∈ Client.connections (Client.shards_run w2) →
        s ∈ Worker.tp_workers (Worker.engine conn) →
        Ext.model s !! "w"
        = Some (Ext.incoming s (Client.rank (Client.client w2)) (Tensor "float32" [2; 1] [])).
Proof.
  destruct (pushed_parameter_reaches_every_model Sample.world "w" Sample.weights
              eq_refl sample_world_fresh eq_refl)
    as (w1 & log1 & w2 & log2 & Hinit & Hupd & Hall).
  exists w1, log1, w2, log2. split; [exact Hinit|]. split; [exact Hupd|].
  intros conn s Hconn Hs. by destruct (Hall conn s Hconn Hs) as [_ Hm].
Defined.

(** The server that is up at the fourth request, with a timeout of ten
    seconds. *)
Lemma check_server_returns_once_healthy_witness :
  Client.check_server Sample.net_late 10000 2000 4 (Client.Hc 0 0)
  = (Ok (Some tt), Client.Hc 6020 4,
     [EvHttpGet "/health/"; EvSleep 2000; EvHttpGet "/health/"; EvSleep 2000;
      EvHttpGet "/health/"; EvSleep 2000; EvHttpGet "/health/"]).
Proof.
  apply (check_server_returns_once_healthy Sample.net_late 10000 2000 0 3); [lia| |done].
  intros i Hi. unfold Inv.retried.
  destruct i as [|[|[|i]]]; simpl; lia.
Defined.

(** The default timeout against a server that is down. *)
Lemma new_client_checks_once_witness :
  ClientOps.new "0.0.0.0" 8000 51216 0 Sample.net_down 5 (Client.Hc 0 0)
  = (Raise (ConnectionError "Cannot reach vLLM server"), Client.Hc 5 1,
     [EvHttpGet "/health/"]).
Proof.
  destruct (new_client_checks_once Sample.net_down 0 "0.0.0.0" 8000 51216 4 (Client.Hc 0 0))
    as [_ H].
  apply H; [reflexivity|lia|simpl; lia].
Defined.

(** Two parameters pushed by a client that has joined. *)
Lemma update_model_params_in_order_witness :
  ∃ w1,
    (ClientOps.update_model_params [("w", Sample.weights); ("b", Fixture.bias)]
       Sample.world_joined).1
    = (Ok tt, w1)
    ∧ (Worker.inbox <$> Client.connections w1)
      = [[Worker.Cmd Fixture.update_cmd;
          Worker.Cmd (Worker.Invoke Worker.fire_and_forget
                        (Worker.CallCollectiveRpc
                           (Worker.RpcUpdateNamedParam "b" "float32" [1])))]].
Proof.
  destruct (update_model_params_in_order [("w", Sample.weights); ("b", Fixture.bias)]
              Sample.world_joined) as [H _].
  destruct (H _ eq_refl eq_refl) as (w1 & Hrun & _ & Hconns).
  exists w1. split; [by rewrite Hrun|]. by rewrite Hconns.
Defined.

(** One prompt on two shards: the second shard is sent the placeholder. *)
Lemma generate_sends_every_shard_a_batch_witness :
  Server.send_chunks (Server.sampling_params (Sample.request ["a"]))
    [Sample.shard true; Sample.shard true] [["a"]; []] !! 1%nat
  = Some (Worker.send
            (Worker.Invoke Worker.call
               (Worker.CallGenerate ["<placeholder>"]
                  (Server.sampling_params (Sample.request ["a"]))))
            (Sample.shard true)).
Proof.
  destruct (generate_sends_every_shard_a_batch (Sample.args 1 2) (Sample.request ["a"])
              [Sample.shard true; Sample.shard true] [["a"]; []] 1 (Sample.shard true)
              ltac:(simpl; lia) eq_refl eq_refl eq_refl)
    as (ch & batch & Hch & Hsent & _ & _ & Hph).
  injection Hch as <-. rewrite Hsent. by rewrite (Hph eq_refl).
Defined.

(** A request of one prompt, then a request of two, on two shards. *)
Lemma generate_after_generate_witness :
  (Server.generate (Sample.args 1 2) (Sample.request ["a"; "bb"])
     (Server.generate (Sample.args 1 2) (Sample.request ["a"])
        [Sample.shard true; Sample.shard true]).2).1
  = Ok [[1]; [2]].
Proof.
  destruct (generate_after_generate Sample.echo (Sample.args 1 2) (Sample.request ["a"])
              (Sample.request ["a"; "bb"]) [Sample.shard true; Sample.shard true]
              ltac:(simpl; lia) eq_refl sample_replicas_idle ltac:(simpl; lia)) as [_ H].
  exact H.
Defined.
